(** * Message broker and idempotency ledger

    A shallow embedding of [src/lib/messageBroker.ts] (class [MessageBroker])
    and of the [IdempotencyManager] class, with the properties the design
    document states about them.

    Conventions of the embedding:
    - a [Date] is the number of milliseconds it holds, an integer [Z]; every
      function that reads the clock ([new Date()], [Date.now()]) receives the
      instant as its argument [now].  A [Date] holds at most 8.64e15
      milliseconds either side of the epoch; [new Date(x)] beyond that is an
      Invalid Date, which has no integer and is not represented: what is
      proved about a date the code computes is proved for sums within that
      range ([Idempotency.valid_date]);
    - [setTimeout] is Node's: a delay outside 1 .. 2^31 - 1 milliseconds is
      set to 1 ([MessageBroker.setTimeout_delay]), and a callback runs at
      the instant it is due or later, never before;
    - a method that mutates [this] becomes a function from the state before to
      the state after, paired with the returned value where there is one;
    - a JavaScript [Map<string, _>] is a [gmap string _], an array is a [list]
      ([push] appends at the tail, [shift] removes the head, [unshift] adds at
      the head);
    - [console.log] and friends are not modelled. *)

From Stdlib Require Import Ascii String.
From stdpp Require Import gmap strings list fin_maps pretty.

Local Open Scope Z_scope.

(** ** JavaScript helpers *)

(** [x || d] on an optional field: [undefined] takes the default. *)
Definition or_default {A} (x : option A) (d : A) : A :=
  match x with
  | Some v => v
  | None => d
  end.

(** Lower-casing of ASCII letters and substring search, used to read the
    reason phrases of the ledger apart from their capitalisation. *)
Definition lower_ascii (c : ascii) : ascii :=
  let n := nat_of_ascii c in
  if (65 <=? n)%nat && (n <=? 90)%nat then ascii_of_nat (n + 32) else c.

Fixpoint lower (s : string) : string :=
  match s with
  | EmptyString => EmptyString
  | String c s' => String (lower_ascii c) (lower s')
  end.

Fixpoint mentions (phrase s : string) : bool :=
  String.prefix phrase s ||
  match s with
  | EmptyString => false
  | String _ s' => mentions phrase s'
  end.

(** A reason reads as a phrase when it contains it, capitals apart. *)
Definition reads_as (phrase : string) (r : option string) : Prop :=
  ∃ s, r = Some s ∧ mentions phrase (lower s) = true.

(** A [new] expression either completes with the new object or throws. *)
Inductive Completion (A : Type) :=
| Normal (a : A)
| Throw (message : string).
Arguments Normal {A} a.
Arguments Throw {A} message.

(** ** The idempotency ledger ([IdempotencyManager]) *)

Module Idempotency.

Inductive Status := pending | completed | failed.

#[export] Instance Status_eq_dec : EqDecision Status.
Proof. solve_decision. Defined.

(** [result?: any].  The ledger stores two shapes there: the value the action
    resolved with (opaque to the ledger, kept as a string) and, from
    [markFailed], the object [{ error, timestamp }]. *)
Inductive ResultValue :=
| Value (v : string)
| ErrorInfo (error : string) (timestamp : Z).

(** [metadata?: Record<string, any>].  The ledger itself reads and writes two
    keys: [retryCount], a number, and [lastError], a string.  They are typed
    fields here; all other keys of the caller are the opaque map [extra]. *)
Record Metadata := {
  retryCount : option Z;
  lastError : option string;
  extra : gmap string string
}.

Definition no_metadata : Metadata :=
  {| retryCount := None; lastError := None; extra := ∅ |}.

(** Object spread [{ ...a, ...b }]: the keys of [b] win; spreading
    [undefined] adds nothing. *)
Definition spread (a b : option Metadata) : Metadata :=
  let a' := or_default a no_metadata in
  let b' := or_default b no_metadata in
  {| retryCount := match retryCount b' with
                   | Some n => Some n
                   | None => retryCount a'
                   end;
     lastError := match lastError b' with
                  | Some e => Some e
                  | None => lastError a'
                  end;
     extra := extra b' ∪ extra a' |}.

Record IdempotencyRecord := {
  actionId : string;
  customerId : string;
  actionType : string;
  status : Status;
  result : option ResultValue;
  createdAt : Z;
  completedAt : option Z;
  expiresAt : Z;
  metadata : option Metadata
}.

Record IdempotencyConfig := {
  ttlMs : Z;
  maxRetries : Z;
  cleanupIntervalMs : Z
}.

Definition default_config : IdempotencyConfig :=
  {| ttlMs := 24 * 60 * 60 * 1000;
     maxRetries := 3;
     cleanupIntervalMs := 60 * 60 * 1000 |}.

(** The private [store]. *)
Abbreviation Store := (gmap string IdempotencyRecord).

(** The manager: its configuration and its store.  The constructor keeps the
    configuration it is given (the default one when called without argument)
    and starts the cleanup timer; it has no [throw]. *)
Record Manager := {
  config : IdempotencyConfig;
  store : Store
}.

Definition constructor (cfg : option IdempotencyConfig) : Completion Manager :=
  Normal {| config := or_default cfg default_config; store := ∅ |}.

(** [generateKey]: the template string [`${customerId}:${actionId}`]. *)
Definition generateKey (actionId customerId : string) : string :=
  customerId +:+ ":" +:+ actionId.

(** Whether a customer id contains the separator of the key. *)
Fixpoint has_colon (s : string) : bool :=
  match s with
  | EmptyString => false
  | String c s' => bool_decide (c = ":"%char) || has_colon s'
  end.

(** [new Date() > record.expiresAt] *)
Definition expired (now : Z) (r : IdempotencyRecord) : bool :=
  expiresAt r <? now.

(** [record.metadata?.retryCount || 0] *)
Definition retryCount_of (r : IdempotencyRecord) : Z :=
  match metadata r with
  | Some md => or_default (retryCount md) 0
  | None => 0
  end.

Record CheckResult := {
  canProceed : bool;
  existingRecord : option IdempotencyRecord;
  reason : option string
}.

Definition checkIdempotency (cfg : IdempotencyConfig) (now : Z)
    (aid cid atype : string) (st : Store) : Store * CheckResult :=
  let key := generateKey aid cid in
  match st !! key with
  | None =>
      (st, {| canProceed := true; existingRecord := None; reason := None |})
  | Some r =>
      if expired now r then
        (delete key st,
         {| canProceed := true; existingRecord := None; reason := None |})
      else
        match status r with
        | pending =>
            (st, {| canProceed := false; existingRecord := Some r;
                    reason := Some "Action is still in progress"%string |})
        | completed =>
            (st, {| canProceed := false; existingRecord := Some r;
                    reason := Some "Action already completed"%string |})
        | failed =>
            if maxRetries cfg <=? retryCount_of r then
              (st, {| canProceed := false; existingRecord := Some r;
                      reason := Some "Max retries exceeded"%string |})
            else
              (st, {| canProceed := true; existingRecord := Some r;
                      reason := None |})
        end
  end.

(** The time values a [Date] can hold. *)
Definition valid_date (x : Z) : Prop :=
  -8640000000000000 ≤ x ≤ 8640000000000000.

(** [storeAction]; [expiresAt] is [new Date(now.getTime() + ttlMs)], which
    holds the sum when the sum is a [valid_date]. *)
Definition storeAction (cfg : IdempotencyConfig) (now : Z)
    (aid cid atype : string) (md : option Metadata) (st : Store)
    : Store * IdempotencyRecord :=
  let key := generateKey aid cid in
  let record :=
    {| actionId := aid; customerId := cid; actionType := atype;
       status := pending; result := None;
       createdAt := now; completedAt := None;
       expiresAt := now + ttlMs cfg;
       metadata := md |} in
  (<[key := record]> st, record).

Definition markCompleted (now : Z) (aid cid : string) (res : string)
    (md : option Metadata) (st : Store) : Store * bool :=
  let key := generateKey aid cid in
  match st !! key with
  | None => (st, false)
  | Some r =>
      let r' :=
        {| actionId := actionId r; customerId := customerId r;
           actionType := actionType r;
           status := completed; result := Some (Value res);
           createdAt := createdAt r; completedAt := Some now;
           expiresAt := expiresAt r;
           metadata := match md with
                       | Some _ => Some (spread (metadata r) md)
                       | None => metadata r
                       end |} in
      (<[key := r']> st, true)
  end.

Definition markFailed (now : Z) (aid cid : string) (error : string)
    (md : option Metadata) (st : Store) : Store * bool :=
  let key := generateKey aid cid in
  match st !! key with
  | None => (st, false)
  | Some r =>
      let n := retryCount_of r + 1 in
      let merged := spread (metadata r) md in
      let r' :=
        {| actionId := actionId r; customerId := customerId r;
           actionType := actionType r;
           status := failed; result := Some (ErrorInfo error now);
           createdAt := createdAt r; completedAt := Some now;
           expiresAt := expiresAt r;
           metadata := Some {| retryCount := Some n;
                               lastError := Some error;
                               extra := extra merged |} |} in
      (<[key := r']> st, true)
  end.

Definition removeAction (aid cid : string) (st : Store) : Store * bool :=
  let key := generateKey aid cid in
  (delete key st, bool_decide (is_Some (st !! key))).

(** [cleanupExpiredRecords], the body of the interval timer. *)
Definition cleanupExpiredRecords (now : Z) (st : Store) : Store :=
  filter (λ kr, expired now kr.2 = false) st.

(** *** [executeWithIdempotency]

    The action is [() => Promise<T>]: it settles by resolving with a value,
    by rejecting with an [Error] that has a message, or by rejecting with
    something that is not an [Error]. *)
Inductive ActionOutcome :=
| Resolves (v : string)
| RejectsError (message : string)
| RejectsOther.

Record ExecResult := {
  exec_success : bool;
  exec_result : option ResultValue;
  exec_fromCache : bool;
  exec_error : option string
}.

(** The function runs in two synchronous blocks around [await
    actionFunction()].  The first block checks, and either returns at once or
    stores the pending record and calls the action. *)
Inductive Started :=
| Returned (r : ExecResult)
| Invoked.

Definition execute_begin (cfg : IdempotencyConfig) (now : Z)
    (aid cid atype : string) (md : option Metadata) (st : Store)
    : Store * Started :=
  let '(st1, chk) := checkIdempotency cfg now aid cid atype st in
  if negb (canProceed chk) &&
     bool_decide (status <$> existingRecord chk = Some completed) then
    (st1, Returned {| exec_success := true;
                      exec_result := existingRecord chk ≫= result;
                      exec_fromCache := true;
                      exec_error := None |})
  else if negb (canProceed chk) then
    (st1, Returned {| exec_success := false;
                      exec_result := None;
                      exec_fromCache := false;
                      exec_error :=
                        Some (match reason chk with
                              | Some ""%string | None =>
                                  "Cannot proceed with action"%string
                              | Some s => s
                              end) |})
  else
    (fst (storeAction cfg now aid cid atype md st1), Invoked).

(** The second block runs when the action has settled. *)
Definition execute_settle (now : Z) (aid cid : string) (o : ActionOutcome)
    (st : Store) : Store * ExecResult :=
  match o with
  | Resolves v =>
      (fst (markCompleted now aid cid v None st),
       {| exec_success := true; exec_result := Some (Value v);
          exec_fromCache := false; exec_error := None |})
  | RejectsError msg =>
      (fst (markFailed now aid cid msg None st),
       {| exec_success := false; exec_result := None;
          exec_fromCache := false; exec_error := Some msg |})
  | RejectsOther =>
      (fst (markFailed now aid cid "Unknown error" None st),
       {| exec_success := false; exec_result := None;
          exec_fromCache := false;
          exec_error := Some "Unknown error"%string |})
  end.

(** The whole call when nothing else touches the ledger while the action
    runs.  The action works on a world [W] of its own (its side effects);
    [now] is the instant of the call, [now'] the instant the action settles.
    The outer [catch] of the source is unreachable: neither
    [checkIdempotency] nor [storeAction] throws. *)
Definition executeWithIdempotency {W : Type} (cfg : IdempotencyConfig)
    (now now' : Z) (aid cid atype : string)
    (actionFunction : W → W * ActionOutcome) (md : option Metadata)
    (s : Store * W) : (Store * W) * ExecResult :=
  match execute_begin cfg now aid cid atype md s.1 with
  | (st1, Returned r) => ((st1, s.2), r)
  | (st1, Invoked) =>
      let '(w', o) := actionFunction s.2 in
      let '(st2, r) := execute_settle now' aid cid o st1 in
      ((st2, w'), r)
  end.

(** *** Calls for one key, interleaved

    Several callers may enter [executeWithIdempotency] for the same pair
    while an action is still running.  A session follows the ledger and the
    number of calls suspended at the [await]; its inputs are a caller
    entering the function, a running action settling, and the cleanup timer
    running. *)
Inductive Input :=
| Call (now : Z) (atype : string) (md : option Metadata)
| Settle (now : Z) (o : ActionOutcome)
| Sweep (now : Z).

Definition input_time (i : Input) : Z :=
  match i with
  | Call now _ _ => now
  | Settle now _ => now
  | Sweep now => now
  end.

Inductive Event :=
| EvReturned (r : ExecResult)
| EvInvoked
| EvSettled (r : ExecResult).

Record Session := {
  ledger : Store;
  inflight : nat
}.

Definition session_step (cfg : IdempotencyConfig) (aid cid : string)
    (i : Input) (s : Session) : Session * list Event :=
  match i with
  | Call now atype md =>
      match execute_begin cfg now aid cid atype md (ledger s) with
      | (st, Returned r) =>
          ({| ledger := st; inflight := inflight s |}, [EvReturned r])
      | (st, Invoked) =>
          ({| ledger := st; inflight := S (inflight s) |}, [EvInvoked])
      end
  | Settle now o =>
      match inflight s with
      | O => (s, [])
      | S n =>
          let '(st, r) := execute_settle now aid cid o (ledger s) in
          ({| ledger := st; inflight := n |}, [EvSettled r])
      end
  | Sweep now =>
      ({| ledger := cleanupExpiredRecords now (ledger s);
          inflight := inflight s |}, [])
  end.

Fixpoint session_run (cfg : IdempotencyConfig) (aid cid : string)
    (inputs : list Input) (s : Session) : Session * list Event :=
  match inputs with
  | [] => (s, [])
  | i :: rest =>
      let '(s1, evs1) := session_step cfg aid cid i s in
      let '(s2, evs2) := session_run cfg aid cid rest s1 in
      (s2, evs1 ++ evs2)
  end.

(** Reading a trace of events: an invocation may start only when no other
    invocation is running and none has succeeded, and only a running
    invocation settles. *)
Inductive Phase := Idle | Running | Done.

Definition phase_step (p : Phase) (e : Event) : option Phase :=
  match e, p with
  | EvReturned _, _ => Some p
  | EvInvoked, Idle => Some Running
  | EvInvoked, _ => None
  | EvSettled r, Running => Some (if exec_success r then Done else Idle)
  | EvSettled _, _ => None
  end.

Fixpoint phase_run (p : Phase) (evs : list Event) : option Phase :=
  match evs with
  | [] => Some p
  | e :: rest =>
      match phase_step p e with
      | Some p' => phase_run p' rest
      | None => None
      end
  end.

Definition effective_once (evs : list Event) : bool :=
  bool_decide (is_Some (phase_run Idle evs)).

Definition is_success (e : Event) : bool :=
  match e with
  | EvSettled r => exec_success r
  | _ => false
  end.

(** All inputs fall in one window of length [ttlMs] that ends at [wend]. *)
Definition in_window (cfg : IdempotencyConfig) (wend : Z) (inputs : list Input)
    : Prop :=
  Forall (λ i, input_time i ≤ wend ∧ wend ≤ input_time i + ttlMs cfg) inputs.

(** *** Calls for one key, one after the other

    Each call is given by the instant it is made, the instant its action
    settles, the action type and the metadata of the caller. *)
Record CallArgs := {
  call_now : Z;
  call_settled : Z;
  call_type : string;
  call_metadata : option Metadata
}.

Fixpoint run_calls {W : Type} (cfg : IdempotencyConfig) (aid cid : string)
    (actionFunction : W → W * ActionOutcome) (calls : list CallArgs)
    (s : Store * W) : (Store * W) * list ExecResult :=
  match calls with
  | [] => (s, [])
  | c :: rest =>
      let '(s1, r) :=
        executeWithIdempotency cfg (call_now c) (call_settled c) aid cid
          (call_type c) actionFunction (call_metadata c) s in
      let '(s2, rs) := run_calls cfg aid cid actionFunction rest s1 in
      (s2, r :: rs)
  end.

(** The caller does not put a [retryCount] into the metadata it passes. *)
Definition no_retryCount (c : CallArgs) : Prop :=
  match call_metadata c with
  | Some md => retryCount md = None
  | None => True
  end.

Definition always_fails {W : Type} (actionFunction : W → W * ActionOutcome)
    : Prop :=
  ∀ w, ∀ v, (actionFunction w).2 ≠ Resolves v.

(** What the caller gets for an outcome of its action. *)
Definition outcome_result (o : ActionOutcome) : ExecResult :=
  match o with
  | Resolves v =>
      {| exec_success := true; exec_result := Some (Value v);
         exec_fromCache := false; exec_error := None |}
  | RejectsError msg =>
      {| exec_success := false; exec_result := None;
         exec_fromCache := false; exec_error := Some msg |}
  | RejectsOther =>
      {| exec_success := false; exec_result := None;
         exec_fromCache := false; exec_error := Some "Unknown error"%string |}
  end.

(** Configurations the design document recognises: [maxRetries] is at least
    0. *)
Definition valid_config (cfg : IdempotencyConfig) : Prop :=
  0 ≤ maxRetries cfg.

(** The state of a session as a trace reader sees it: in phase [Idle] no call
    is suspended and the key has no record or a failed one, in phase
    [Running] one call is suspended and the record is pending, in phase
    [Done] no call is suspended and the record is completed; the record does
    not expire before the window ends. *)
Definition session_inv (key : string) (wend : Z) (p : Phase) (s : Session)
    : Prop :=
  match p with
  | Idle =>
      inflight s = 0%nat ∧
      (ledger s !! key = None ∨
       ∃ r, ledger s !! key = Some r ∧ status r = failed ∧ wend ≤ expiresAt r)
  | Running =>
      inflight s = 1%nat ∧
      ∃ r, ledger s !! key = Some r ∧ status r = pending ∧ wend ≤ expiresAt r
  | Done =>
      inflight s = 0%nat ∧
      ∃ r, ledger s !! key = Some r ∧ status r = completed ∧
           wend ≤ expiresAt r
  end.

(** Every call of a run invokes the action: the world has gone through the
    action once per call, and every caller got the outcome of an invocation
    (not a refusal of the check). *)
Definition every_call_invokes {W : Type} (cfg : IdempotencyConfig)
    (aid cid : string) (actionFunction : W → W * ActionOutcome)
    (calls : list CallArgs) (s : Store * W) : Prop :=
  let out := run_calls cfg aid cid actionFunction calls s in
  out.1.2 = Nat.iter (length calls) (λ w, (actionFunction w).1) s.2 ∧
  Forall (λ r, ∃ w0, r = outcome_result (actionFunction w0).2) out.2.

(** The key holds a failed record whose count is 1. *)
Definition failed_once (key : string) (st : Store) : Prop :=
  ∃ r, st !! key = Some r ∧ status r = failed ∧ retryCount_of r = 1.

(** Sample data. *)
Definition sample_failed (n : Z) : IdempotencyRecord :=
  {| actionId := "refund-1"; customerId := "cust-7"; actionType := "refund";
     status := failed; result := Some (ErrorInfo "timeout" 500);
     createdAt := 0; completedAt := Some 500; expiresAt := 86400000;
     metadata := Some {| retryCount := Some n;
                         lastError := Some "timeout"%string;
                         extra := ∅ |} |}.

(** An action that counts its invocations in the world and resolves. *)
Definition counting_action (v : string) (n : nat) : nat * ActionOutcome :=
  (S n, Resolves v).

(** An action that counts its invocations in the world and rejects. *)
Definition failing_action (msg : string) (n : nat) : nat * ActionOutcome :=
  (S n, RejectsError msg).

Definition sample_call (now : Z) : CallArgs :=
  {| call_now := now; call_settled := now + 50; call_type := "refund";
     call_metadata := None |}.

(** A budget of one retry. *)
Definition budget_one : IdempotencyConfig :=
  {| ttlMs := 24 * 60 * 60 * 1000; maxRetries := 1;
     cleanupIntervalMs := 60 * 60 * 1000 |}.

(** *** Reading the ledger *)

(** [getActionResult]: the [result] of a completed record; the source's
    [null] is [None]. *)
Definition getActionResult (aid cid : string) (st : Store)
    : option ResultValue :=
  match st !! generateKey aid cid with
  | Some r => if bool_decide (status r = completed) then result r else None
  | None => None
  end.

(** The counters of [getStatistics].  The source also counts the records by
    [actionType] into a plain object ([actionsByType]); that field is not
    part of this record. *)
Record Statistics := {
  totalRecords : nat;
  pendingActions : nat;
  completedActions : nat;
  failedActions : nat;
  expiredRecords : nat
}.

(** The body of the [forEach] of [getStatistics] for one record. *)
Definition count_record (now : Z) (r : IdempotencyRecord) (s : Statistics)
    : Statistics :=
  {| totalRecords := totalRecords s;
     pendingActions :=
       if bool_decide (status r = pending) then S (pendingActions s)
       else pendingActions s;
     completedActions :=
       if bool_decide (status r = completed) then S (completedActions s)
       else completedActions s;
     failedActions :=
       if bool_decide (status r = failed) then S (failedActions s)
       else failedActions s;
     expiredRecords :=
       if expired now r then S (expiredRecords s) else expiredRecords s |}.

Definition getStatistics (now : Z) (st : Store) : Statistics :=
  map_fold (λ _ r s, count_record now r s)
    {| totalRecords := size st; pendingActions := 0; completedActions := 0;
       failedActions := 0; expiredRecords := 0 |} st.

(** [markFailed] called once for each of the given instants and errors. *)
Definition mark_failures (aid cid : string) (failures : list (Z * string))
    (st : Store) : Store :=
  foldl (λ st f, (markFailed f.1 aid cid f.2 None st).1) st failures.

End Idempotency.

(** ** The message broker ([MessageBroker]) *)

Module MessageBroker.

Inductive Channel := whatsapp | telegram | email | web.

#[export] Instance Channel_eq_dec : EqDecision Channel.
Proof. solve_decision. Defined.

(** [retryCount?: number]: every message of the broker gets its count from
    [publishMessage] (0), from a retry (the count plus one) or from
    [retryDeadLetterMessage] (0), so the count is a natural number. *)
Record Message := {
  id : string;
  channel : Channel;
  content : string;
  metadata : gmap string string;
  timestamp : Z;
  retryCount : option nat
}.

#[export] Instance Message_eq_dec : EqDecision Message.
Proof. solve_decision. Defined.

Record MessageBrokerConfig := {
  maxRetries : Z;
  retryDelay : Z;
  deadLetterQueueSize : Z
}.

Definition default_config : MessageBrokerConfig :=
  {| maxRetries := 3; retryDelay := 1000; deadLetterQueueSize := 1000 |}.

(** The broker object, together with the two pieces of the event loop its
    methods leave behind: [current], the message the [processQueue] coroutine
    is awaiting the handler of ([None] when no coroutine is suspended), and
    [timers], the pending [setTimeout] callbacks of [handleFailedMessage],
    each with the instant it is due and the message it will reinsert. *)
Record Broker := {
  messageQueue : list Message;
  deadLetterQueue : list Message;
  processing : bool;
  config : MessageBrokerConfig;
  current : option Message;
  timers : list (Z * Message)
}.

(** The constructor stores the configuration (the default one when called
    without argument); it has no [throw]. *)
Definition new_broker (cfg : MessageBrokerConfig) : Broker :=
  {| messageQueue := []; deadLetterQueue := []; processing := false;
     config := cfg; current := None; timers := [] |}.

Definition constructor (cfg : option MessageBrokerConfig) : Completion Broker :=
  Normal (new_broker (or_default cfg default_config)).

Definition set_retryCount (m : Message) (n : nat) : Message :=
  {| id := id m; channel := channel m; content := content m;
     metadata := metadata m; timestamp := timestamp m;
     retryCount := Some n |}.

(** [moveToDeadLetterQueue]: one [shift] when the sink is full, then [push]. *)
Definition moveToDeadLetterQueue (m : Message) (b : Broker) : Broker :=
  let dlq :=
    if deadLetterQueueSize (config b) <=? Z.of_nat (length (deadLetterQueue b))
    then tail (deadLetterQueue b)
    else deadLetterQueue b in
  {| messageQueue := messageQueue b;
     deadLetterQueue := dlq ++ [m];
     processing := processing b; config := config b;
     current := current b; timers := timers b |}.

(** [(message.retryCount || 0) + 1] *)
Definition next_retryCount (m : Message) : nat :=
  (or_default (retryCount m) 0 + 1)%nat.

(** [this.config.retryDelay * Math.pow(2, retryCount - 1)], on integers ([n]
    is at least 1 at the only call; the floating point product is exact as
    long as it is below 2^53). *)
Definition backoff_delay (cfg : MessageBrokerConfig) (n : nat) : Z :=
  retryDelay cfg * 2 ^ (Z.of_nat n - 1).

(** [setTimeout(callback, delay)] of Node: a delay that is not between 1
    and [TIMEOUT_MAX] (2^31 - 1 milliseconds) is set to 1. *)
Definition TIMEOUT_MAX : Z := 2147483647.

Definition setTimeout_delay (delay : Z) : Z :=
  if (1 <=? delay) && (delay <=? TIMEOUT_MAX) then delay else 1.

(** [handleFailedMessage] at the instant [now]: within the budget it
    registers the timer whose callback will reinsert the message with the
    new count, otherwise it moves the message to the dead letter queue.  The
    timer is recorded with the instant from which [setTimeout] lets it
    run. *)
Definition handleFailedMessage (now : Z) (m : Message) (b : Broker) : Broker :=
  let n := next_retryCount m in
  if Z.of_nat n <=? maxRetries (config b) then
    let delay := backoff_delay (config b) n in
    {| messageQueue := messageQueue b;
       deadLetterQueue := deadLetterQueue b;
       processing := processing b; config := config b;
       current := current b;
       timers := timers b ++
                 [(now + setTimeout_delay delay, set_retryCount m n)] |}
  else
    moveToDeadLetterQueue m b.

(** The [setTimeout] callback of [handleFailedMessage]: [unshift] of the
    retry message, and nothing else.  The timer at position [i] runs when it
    is due; otherwise nothing happens.  A callback registered at [now] can
    run from [now + setTimeout_delay delay] on, not before. *)
Definition timer_fires (now : Z) (i : nat) (b : Broker) : Broker :=
  match timers b !! i with
  | Some (due, m) =>
      if due <=? now then
        {| messageQueue := m :: messageQueue b;
           deadLetterQueue := deadLetterQueue b;
           processing := processing b; config := config b;
           current := current b;
           timers := delete i (timers b) |}
      else b
  | None => b
  end.

(** The head of the [while] loop of [processQueue]: with a message in the
    queue, [shift] it and await its handler; with an empty queue, leave the
    loop and clear [processing]. *)
Definition loop_head (b : Broker) : Broker :=
  match messageQueue b with
  | [] =>
      {| messageQueue := []; deadLetterQueue := deadLetterQueue b;
         processing := false; config := config b;
         current := None; timers := timers b |}
  | m :: q =>
      {| messageQueue := q; deadLetterQueue := deadLetterQueue b;
         processing := processing b; config := config b;
         current := Some m; timers := timers b |}
  end.

(** [processQueue], up to its first [await]. *)
Definition processQueue (b : Broker) : Broker :=
  loop_head {| messageQueue := messageQueue b;
               deadLetterQueue := deadLetterQueue b;
               processing := true; config := config b;
               current := current b; timers := timers b |}.

(** The awaited [processMessage] settles: [ok] says whether it resolved or
    threw.  [processMessage] is the integration point of the broker ("here
    you would integrate with your actual message processing logic"), so its
    outcome is given from outside.  On a throw the [catch] block runs
    [handleFailedMessage]; in both cases the loop goes to its head again. *)
Definition handler_settles (ok : bool) (now : Z) (b : Broker) : Broker :=
  match current b with
  | None => b
  | Some m =>
      let b' := {| messageQueue := messageQueue b;
                   deadLetterQueue := deadLetterQueue b;
                   processing := processing b; config := config b;
                   current := None; timers := timers b |} in
      loop_head (if ok then b' else handleFailedMessage now m b')
  end.

(** What [publishMessage] takes: a message without [id] and [timestamp]. *)
Record MessageInput := {
  in_channel : Channel;
  in_content : string;
  in_metadata : gmap string string;
  in_retryCount : option nat
}.

(** [messageWithId]: the spread of [message] with [id], [timestamp] and
    [retryCount: 0] set after it.  [newId] is what [generateMessageId]
    returns for this call (it is built from the clock and [Math.random]). *)
Definition published (newId : string) (now : Z) (message : MessageInput)
    : Message :=
  {| id := newId; channel := in_channel message;
     content := in_content message; metadata := in_metadata message;
     timestamp := now; retryCount := Some 0%nat |}.

Definition publishMessage (newId : string) (now : Z) (message : MessageInput)
    (b : Broker) : Broker * string :=
  let messageWithId := published newId now message in
  let b1 := {| messageQueue := messageQueue b ++ [messageWithId];
               deadLetterQueue := deadLetterQueue b;
               processing := processing b; config := config b;
               current := current b; timers := timers b |} in
  (if processing b1 then b1 else processQueue b1, newId).

(** [findIndex(msg => msg.id === messageId)]: [None] is the source's [-1]. *)
Fixpoint findIndex (messageId : string) (l : list Message) : option nat :=
  match l with
  | [] => None
  | m :: l' =>
      if bool_decide (id m = messageId) then Some 0%nat
      else S <$> findIndex messageId l'
  end.

Definition retryDeadLetterMessage (messageId : string) (b : Broker)
    : Broker * bool :=
  match findIndex messageId (deadLetterQueue b) with
  | None => (b, false)
  | Some i =>
      match deadLetterQueue b !! i with
      | None => (b, false)
      | Some m =>
          let b1 := {| messageQueue := messageQueue b ++ [set_retryCount m 0];
                       deadLetterQueue := delete i (deadLetterQueue b);
                       processing := processing b; config := config b;
                       current := current b; timers := timers b |} in
          (if processing b1 then b1 else processQueue b1, true)
      end
  end.

Record QueueStats := {
  activeMessages : nat;
  deadLetterMessages : nat;
  isProcessing : bool
}.

Definition getQueueStats (b : Broker) : QueueStats :=
  {| activeMessages := length (messageQueue b);
     deadLetterMessages := length (deadLetterQueue b);
     isProcessing := processing b |}.

Definition getDeadLetterMessages (b : Broker) : list Message :=
  deadLetterQueue b.

(** What can happen to a broker: a call of one of its public methods, the
    handler of the current message settling, or a timer running. *)
Inductive Event :=
| Publish (newId : string) (now : Z) (message : MessageInput)
| HandlerSettles (ok : bool) (now : Z)
| TimerFires (now : Z) (i : nat)
| RetryDeadLetter (messageId : string).

Definition step (e : Event) (b : Broker) : Broker :=
  match e with
  | Publish newId now message => fst (publishMessage newId now message b)
  | HandlerSettles ok now => handler_settles ok now b
  | TimerFires now i => timer_fires now i b
  | RetryDeadLetter messageId => fst (retryDeadLetterMessage messageId b)
  end.

Definition run (es : list Event) (b : Broker) : Broker :=
  foldl (λ b e, step e b) b es.

(** A run in which the handler of one message always fails.  The timer
    callback does not start the dispatcher, so in this run a companion
    message is published after each retry timer has run: that call starts
    the dispatcher, which takes the retry message from the head of the queue
    and leaves the companion behind it.
    One round, for the retry number [attempt]: the handler of the message
    throws at [r.1]; the handler of the companion resolves at [r.2] and the
    dispatcher, finding the queue empty, goes idle; the retry timer runs at
    the instant it is due; the next companion is published. *)
Definition retry_round (cfg : MessageBrokerConfig) (attempt : nat)
    (companion : string * MessageInput) (r : Z * Z) : list Event :=
  [HandlerSettles false r.1;
   HandlerSettles true r.2;
   TimerFires (r.1 + setTimeout_delay (backoff_delay cfg attempt)) 0;
   Publish companion.1 (r.1 + setTimeout_delay (backoff_delay cfg attempt))
     companion.2].

Fixpoint retry_rounds (cfg : MessageBrokerConfig) (attempt : nat)
    (companion : string * MessageInput) (rs : list (Z * Z)) : list Event :=
  match rs with
  | [] => []
  | r :: rest =>
      retry_round cfg attempt companion r ++
      retry_rounds cfg (S attempt) companion rest
  end.

(** The message and its first companion are published at [t0]. *)
Definition first_publish (newId : string) (t0 : Z) (input : MessageInput)
    (companion : string * MessageInput) : list Event :=
  [Publish newId t0 input; Publish companion.1 t0 companion.2].

(** The last failure of the message, and its companion resolving. *)
Definition last_failure (r : Z * Z) : list Event :=
  [HandlerSettles false r.1; HandlerSettles true r.2].

(** Configurations the design document recognises: [maxRetries] is at least
    0 and the capacity of the dead letter queue is positive. *)
Definition valid_config (cfg : MessageBrokerConfig) : Prop :=
  0 ≤ maxRetries cfg ∧ 0 < deadLetterQueueSize cfg.

(** Events that are not calls from outside: the handler settling and timers
    running. *)
Definition internal (e : Event) : bool :=
  match e with
  | HandlerSettles _ _ | TimerFires _ _ => true
  | _ => false
  end.

(** The dead letter queue is within its capacity. *)
Definition dlq_bounded (b : Broker) : Prop :=
  Z.of_nat (length (deadLetterQueue b)) ≤ deadLetterQueueSize (config b).

(** Sample data. *)
Definition sample_input : MessageInput :=
  {| in_channel := email; in_content := "where is my order";
     in_metadata := ∅; in_retryCount := None |}.

Definition sample_message (i : string) (n : nat) : Message :=
  {| id := i; channel := web; content := "hello"; metadata := ∅;
     timestamp := 0; retryCount := Some n |}.

Definition sample_broker : Broker :=
  {| messageQueue := [sample_message "msg_9" 0];
     deadLetterQueue := [sample_message "msg_1" 3; sample_message "msg_2" 3];
     processing := false; config := default_config;
     current := None; timers := [] |}.

(** No retries, room for two dead letters. *)
Definition small_sink : MessageBrokerConfig :=
  {| maxRetries := 0; retryDelay := 1000; deadLetterQueueSize := 2 |}.

(** Three messages are published and the handler fails on each. *)
Definition three_failures : list Event :=
  [Publish "msg_1" 0 sample_input; Publish "msg_2" 10 sample_input;
   Publish "msg_3" 20 sample_input;
   HandlerSettles false 100; HandlerSettles false 200;
   HandlerSettles false 300].

(** A retry delay of 2^31 milliseconds, one more than [setTimeout] takes. *)
Definition long_delay : MessageBrokerConfig :=
  {| maxRetries := 3; retryDelay := 2147483648; deadLetterQueueSize := 1000 |}.

(** One message is published and its handler throws; nothing is called from
    outside afterwards. *)
Definition lone_failure (newId : string) (t0 t1 : Z) (input : MessageInput)
    : list Event :=
  [Publish newId t0 input; HandlerSettles false t1].

(** The retry timer of a message handled at [t1] has been let run in [es]. *)
Definition retry_timer_ran (cfg : MessageBrokerConfig) (t1 : Z)
    (es : list Event) : Prop :=
  ∃ t, t1 + setTimeout_delay (backoff_delay cfg 1) ≤ t ∧ TimerFires t 0 ∈ es.

(** The broker while the dispatcher awaits the handler of [m], with the
    companion [c] queued and nothing scheduled or dead-lettered. *)
Definition delivering (cfg : MessageBrokerConfig) (m c : Message) : Broker :=
  {| messageQueue := [c]; deadLetterQueue := []; processing := true;
     config := cfg; current := Some m; timers := [] |}.

Definition sample_companion : string * MessageInput :=
  ("msg_other"%string,
   {| in_channel := web; in_content := "hello"; in_metadata := ∅;
      in_retryCount := None |}).

(** *** Observing a run *)

(** The messages a broker holds: the one being handled, the queue, the
    retries waiting for their timer and the dead letters. *)
Definition pool (b : Broker) : list Message :=
  option_list (current b) ++ messageQueue b ++ (snd <$> timers b) ++
  deadLetterQueue b.

(** The message an event publishes. *)
Definition published_by (e : Event) : list Message :=
  match e with
  | Publish newId now message => [published newId now message]
  | _ => []
  end.

(** The message whose handler resolves at an event. *)
Definition delivered (e : Event) (b : Broker) : list Message :=
  match e, current b with
  | HandlerSettles true _, Some m => [m]
  | _, _ => []
  end.

(** The dead letter an event pushes out: the handler of a message with no
    retry left throws while the dead letter queue is full, and
    [moveToDeadLetterQueue] shifts the oldest entry out. *)
Definition evicted (e : Event) (b : Broker) : list Message :=
  match e, current b with
  | HandlerSettles false _, Some m =>
      if Z.of_nat (next_retryCount m) <=? maxRetries (config b) then []
      else if deadLetterQueueSize (config b) <=?
                Z.of_nat (length (deadLetterQueue b))
           then take 1 (deadLetterQueue b)
           else []
  | _, _ => []
  end.

(** What an observer sees along a run. *)
Fixpoint log (observe : Event → Broker → list Message) (es : list Event)
    (b : Broker) : list Message :=
  match es with
  | [] => []
  | e :: es' => observe e b ++ log observe es' (step e b)
  end.

Definition is_failure (e : Event) : bool :=
  match e with
  | HandlerSettles false _ => true
  | _ => false
  end.

(** The flag [processing] is set exactly while a handler is awaited. *)
Definition flag_accurate (b : Broker) : Prop :=
  processing b = true ↔ is_Some (current b).

(** [moveToDeadLetterQueue] for each message of a list, in order. *)
Definition move_all (ms : list Message) (b : Broker) : Broker :=
  foldl (λ b m, moveToDeadLetterQueue m b) b ms.

(** The retry count of a message is set and within the budget. *)
Definition within_budget (cfg : MessageBrokerConfig) (m : Message) : Prop :=
  ∃ k : nat, retryCount m = Some k ∧ Z.of_nat k ≤ maxRetries cfg.

(** The retry count of a message is exactly the budget. *)
Definition budget_used (cfg : MessageBrokerConfig) (m : Message) : Prop :=
  retryCount m = Some (Z.to_nat (maxRetries cfg)).

(** While no handler throws, nothing is scheduled or dead-lettered, an idle
    dispatcher has an empty queue, and the messages delivered so far, the
    one being handled and the queue are the published messages in order. *)
Definition fifo_state (es : list Event) (b0 b : Broker) : Prop :=
  flag_accurate b ∧ timers b = [] ∧ deadLetterQueue b = [] ∧
  (current b = None → messageQueue b = []) ∧
  log delivered es b0 ++ option_list (current b) ++ messageQueue b =
    es ≫= published_by.

(** Every message the broker still works on is within the budget, and
    every dead letter has used the budget up. *)
Definition counts_ok (b : Broker) : Prop :=
  Forall (within_budget (config b))
    (option_list (current b) ++ messageQueue b ++ (snd <$> timers b)) ∧
  Forall (budget_used (config b)) (deadLetterQueue b).

End MessageBroker.

(** ** Configurations *)

Module Configuration.

(** The design document asks that a configuration outside the recognised
    ones makes the constructor fail. *)
Definition rejects_invalid_configurations : Prop :=
  (∀ cfg, ¬ MessageBroker.valid_config cfg →
     ∃ msg, MessageBroker.constructor (Some cfg) = Throw msg) ∧
  (∀ cfg, ¬ Idempotency.valid_config cfg →
     ∃ msg, Idempotency.constructor (Some cfg) = Throw msg).

Definition negative_retries : MessageBroker.MessageBrokerConfig :=
  {| MessageBroker.maxRetries := -1; MessageBroker.retryDelay := 1000;
     MessageBroker.deadLetterQueueSize := 0 |}.

End Configuration.

(** ** The encryption helpers ([EncryptionManager]) *)

Module Encryption.

(** [x || d] on an optional string: [undefined] and the empty string take
    the default. *)
Definition string_or (x : option string) (d : string) : string :=
  match x with
  | Some ""%string | None => d
  | Some s => s
  end.

(** [if (x)] on an optional string. *)
Definition truthy (x : option string) : option string :=
  match x with
  | Some ""%string | None => None
  | Some s => Some s
  end.

(** [s.split(':')] *)
Fixpoint split_colon (s : string) : list string :=
  match s with
  | EmptyString => [EmptyString]
  | String c s' =>
      if bool_decide (c = ":"%char) then EmptyString :: split_colon s'
      else match split_colon s' with
           | x :: xs => String c x :: xs
           | [] => [String c EmptyString]
           end
  end.

Record EncryptionResult := {
  encrypted : string;
  iv : string;
  tag : option string
}.

Record DecryptionResult := {
  decrypted : string;
  success : bool;
  error : option string
}.

Definition keyLength : nat := 32.

Section Crypto.

(** The primitives of Node's [crypto] module are parameters.  A [Buffer] is
    the string of its bytes, so [Buffer.from(text, 'utf8')] and
    [toString('utf8')] do nothing to a text.
    [cipher key data]: [createCipher], [setAAD], [update], [final] and
    [getAuthTag] for the key given in hex; the ciphertext in base64 and the
    tag in hex, or the message of the [Error] thrown.
    [decipher key data tag]: [createDecipher], [setAAD], [setAuthTag] when
    there is a tag, [update] and [final]; the plain bytes, or the message
    of the [Error] thrown.
    [pbkdf2 password salt keylen]: [pbkdf2Sync] with 100000 rounds of
    sha256, in hex.  [sha256 data]: the digest in hex. *)
Variable cipher : string → string → Completion (string * string).
Variable decipher : string → string → option string → Completion string.
Variable pbkdf2 : string → string → nat → string.
Variable sha256 : string → string.

(** [encryptData]; [ivHex] is what [randomBytes(16)] gives for this call. *)
Definition encryptData (ivHex : string) (data key : string)
    : Completion EncryptionResult :=
  if negb (String.length key =? keyLength * 2)%nat then
    Throw ("Encryption failed: " +:+
           "Invalid key length. Expected 64 hex characters (32 bytes)")
  else
    match cipher key data with
    | Normal (enc, t) =>
        Normal {| encrypted := enc; iv := ivHex; tag := Some t |}
    | Throw msg => Throw ("Encryption failed: " +:+ msg)
    end.

Definition decryptData (encryptedData key : string) (ivHex : option string)
    (t : option string) : DecryptionResult :=
  if negb (String.length key =? keyLength * 2)%nat then
    {| decrypted := ""; success := false;
       error := Some "Invalid key length"%string |}
  else
    match decipher key encryptedData (truthy t) with
    | Normal d => {| decrypted := d; success := true; error := None |}
    | Throw msg => {| decrypted := ""; success := false; error := Some msg |}
    end.

(** [generateCustomerKey]; [env] is [process.env.ENCRYPTION_KEY]. *)
Definition generateCustomerKey (env : option string) (customerId : string)
    : string :=
  let baseKey := string_or env "dummy-32-char-encryption-key-here" in
  let customerSalt := ("customer_" +:+ customerId +:+ "_salt")%string in
  pbkdf2 baseKey customerSalt keyLength.

(** [encryptText]; [rndKey] is what [generateKey()] would return. *)
Definition encryptText (env : option string) (rndKey ivHex : string)
    (text : string) (customerId : option string)
    : Completion EncryptionResult :=
  let key := match truthy customerId with
             | Some c => generateCustomerKey env c
             | None => string_or env rndKey
             end in
  encryptData ivHex text key.

Definition decryptText (env : option string) (r : EncryptionResult)
    (customerId : option string) : Completion string :=
  let key := match truthy customerId with
             | Some c => generateCustomerKey env c
             | None => string_or env ""
             end in
  let result := decryptData (encrypted r) key (Some (iv r)) (tag r) in
  if success result then Normal (decrypted result)
  else Throw (string_or (error result) "Text decryption failed").

(** [hashData]; [rnd] is what [randomBytes(16)] gives in hex. *)
Definition hashData (rnd : string) (data : string) (salt : option string)
    : string :=
  let actualSalt := string_or salt rnd in
  (actualSalt +:+ ":" +:+ pbkdf2 data actualSalt 64)%string.

(** [verifyHash]: the first two parts of the split are the salt and the
    hash; a missing hash is [undefined] and equals no string. *)
Definition verifyHash (data hashedData : string) : bool :=
  match split_colon hashedData with
  | salt :: hash :: _ => bool_decide (hash = pbkdf2 data salt 64)
  | _ => false
  end.

Definition encryptCredentials (env : option string) (rndKey ivHex : string)
    (credentials : string) : Completion string :=
  match encryptData ivHex credentials (string_or env rndKey) with
  | Normal r =>
      Normal (encrypted r +:+ ":" +:+ iv r +:+ ":" +:+
              match tag r with
              | Some t => t
              | None => "undefined"
              end)%string
  | Throw msg => Throw msg
  end.

Definition decryptCredentials (env : option string)
    (encryptedCredentials : string) : Completion string :=
  let parts := split_colon encryptedCredentials in
  let result := decryptData (or_default (parts !! 0%nat) ""%string)
                  (string_or env "") (parts !! 1%nat) (parts !! 2%nat) in
  if success result then Normal (decrypted result)
  else Throw "Failed to decrypt credentials".

(** [encryptAttachment] and [decryptAttachment]; [now] stands for
    [new Date().toISOString()]. *)
Record AttachmentMetadata := {
  originalFilename : string;
  customerId : string;
  encryptedAt : Z;
  fileSize : nat;
  checksum : string
}.

Definition encryptAttachment (env : option string) (ivHex : string) (now : Z)
    (fileBuffer filename cid : string)
    : Completion (EncryptionResult * AttachmentMetadata) :=
  let customerKey := generateCustomerKey env cid in
  let sum := sha256 fileBuffer in
  match encryptData ivHex fileBuffer customerKey with
  | Normal r =>
      Normal (r, {| originalFilename := filename; customerId := cid;
                    encryptedAt := now;
                    fileSize := String.length fileBuffer;
                    checksum := sum |})
  | Throw msg => Throw msg
  end.

Record DecryptedAttachment := {
  fileBuffer : string;
  filename : string;
  isValid : bool
}.

Definition decryptAttachment (env : option string) (r : EncryptionResult)
    (md : AttachmentMetadata) : Completion DecryptedAttachment :=
  let customerKey := generateCustomerKey env (customerId md) in
  let result := decryptData (encrypted r) customerKey (Some (iv r)) (tag r) in
  if success result then
    Normal {| fileBuffer := decrypted result;
              filename := originalFilename md;
              isValid := bool_decide (sha256 (decrypted result) =
                                      checksum md) |}
  else Throw (string_or (error result) "Decryption failed").

(** What is known of the primitives: hex and base64 have no colon, a key of
    [n] bytes has [2 * n] hex digits, the tag is not empty, and deciphering
    with the key and the tag of the ciphering gives the data back. *)
Definition hex_digest : Prop :=
  ∀ p s n, Idempotency.has_colon (pbkdf2 p s n) = false ∧
           String.length (pbkdf2 p s n) = (2 * n)%nat.

Definition cipher_sound : Prop :=
  ∀ k d enc t,
    cipher k d = Normal (enc, t) →
    decipher k enc (Some t) = Normal d ∧ t ≠ ""%string ∧
    Idempotency.has_colon enc = false ∧ Idempotency.has_colon t = false.

End Crypto.

(** Toy primitives for examples: the cipher refuses data with a colon and
    copies the rest. *)
Definition toy_cipher (k d : string) : Completion (string * string) :=
  if Idempotency.has_colon d then Throw "unsupported"%string
  else Normal (d, "7a"%string).

Definition toy_decipher (k e : string) (t : option string)
    : Completion string :=
  Normal e.

Fixpoint zeros (n : nat) : string :=
  match n with
  | O => EmptyString
  | S n' => String "0" (zeros n')
  end.

Definition toy_pbkdf2 (p s : string) (n : nat) : string := zeros (2 * n).

End Encryption.

(** ** The language model client ([LLMManager]) *)

Module LLM.

Inductive Role := system | user | assistant.

Record LLMMessage := { role : Role; content : string }.

(** The [usage] of a response; the counts are integers. *)
Record Usage := {
  prompt_tokens : Z;
  completion_tokens : Z;
  total_tokens : Z
}.

Definition getDefaultSystemPrompt : string :=
  "You are a professional customer service AI assistant. Follow these guidelines:

1. Be helpful, polite, and empathetic
2. Provide accurate information based on company policies
3. If you don't know something, admit it and offer to escalate
4. Keep responses concise but complete
5. Always maintain a professional tone
6. Never make promises you cannot keep
7. Prioritize customer satisfaction while following company guidelines

Remember: You represent the company, so maintain high standards in all interactions.".

Section Manager.

(** Floating point numbers (the temperature, the cost) are a parameter:
    [Num] with the sum, the test [!x] and the arithmetic of [calculateCost]
    on the price of the model. *)
Variable Num : Type.
Variable num_zero : Num.
Variable num_add : Num → Num → Num.
Variable num_falsy : Num → bool.
Variable calculateCost : string → Z → Z → Num.

Record LLMConfig := {
  apiKey : string;
  model : string;
  maxTokens : Z;
  temperature : Num;
  baseURL : string
}.

Record LLMRequest := {
  req_model : string;
  messages : list LLMMessage;
  max_tokens : Z;
  req_temperature : Num
}.

(** [dailyLimit] is the result of [parseInt]: [None] is [NaN]. *)
Record CostTracker := {
  totalTokensUsed : Z;
  totalCost : Num;
  requestCount : Z;
  dailyTokens : Z;
  dailyLimit : option Z;
  lastResetDate : string
}.

(** The options of [callLLM]; [context] is never read. *)
Record Options := {
  systemPrompt : option string;
  opt_temperature : option Num;
  opt_maxTokens : option Z;
  customerId : option string
}.

Record UsageReport := {
  promptTokens : Z;
  completionTokens : Z;
  totalTokens : Z;
  estimatedCost : Num
}.

Record CallResult := {
  success : bool;
  response : option string;
  usage : option UsageReport;
  error : option string
}.

(** What the API call comes to.  [Rejects msg]: [fetch], [text()] or
    [json()] rejects, or the body lacks what [callLLM] reads of it, with the
    message that the [catch] reports.  [NotOk]: [response.ok] is false.
    [Body]: the content of the first choice, if any, and the usage. *)
Inductive Reply :=
| Rejects (msg : string)
| NotOk (status : nat) (errorText : string)
| Body (content : option string) (u : Usage).

(** The network: [fetch world url key request]. *)
Variable W : Type.
Variable fetch : W → string → string → LLMRequest → W * Reply.

(** [today] is [new Date().toISOString().split('T')[0]]. *)
Definition initializeCostTracker (limit : option Z) (today : string)
    : CostTracker :=
  {| totalTokensUsed := 0; totalCost := num_zero; requestCount := 0;
     dailyTokens := 0; dailyLimit := limit; lastResetDate := today |}.

Definition resetDailyUsage (today : string) (t : CostTracker) : CostTracker :=
  {| totalTokensUsed := totalTokensUsed t; totalCost := totalCost t;
     requestCount := requestCount t; dailyTokens := 0;
     dailyLimit := dailyLimit t; lastResetDate := today |}.

Definition checkDailyLimit (today : string) (t : CostTracker)
    : CostTracker * bool :=
  let t' := if bool_decide (lastResetDate t ≠ today)
            then resetDailyUsage today t else t in
  (t', match dailyLimit t' with
       | Some l => bool_decide (dailyTokens t' < l)
       | None => false
       end).

Definition updateCostTracker (tokens : Z) (cost : Num) (t : CostTracker)
    : CostTracker :=
  {| totalTokensUsed := totalTokensUsed t + tokens;
     totalCost := num_add (totalCost t) cost;
     requestCount := requestCount t + 1;
     dailyTokens := dailyTokens t + tokens;
     dailyLimit := dailyLimit t; lastResetDate := lastResetDate t |}.

Definition failure (msg : string) : CallResult :=
  {| success := false; response := None; usage := None; error := Some msg |}.

Definition request_of (cfg : LLMConfig) (prompt : string)
    (options : option Options) : LLMRequest :=
  let sys := match Encryption.truthy (options ≫= systemPrompt) with
             | Some p => p
             | None => getDefaultSystemPrompt
             end in
  {| req_model := model cfg;
     messages := [ {| role := system; content := sys |};
                   {| role := user; content := prompt |} ];
     max_tokens := match options ≫= opt_maxTokens with
                   | Some n => if bool_decide (n = 0) then maxTokens cfg else n
                   | None => maxTokens cfg
                   end;
     req_temperature := match options ≫= opt_temperature with
                        | Some x => if num_falsy x then temperature cfg else x
                        | None => temperature cfg
                        end |}.

(** [callLLM] on the world and the tracker. *)
Definition callLLM (cfg : LLMConfig) (today : string) (prompt : string)
    (options : option Options) (s : W * CostTracker)
    : (W * CostTracker) * CallResult :=
  let (t, ok) := checkDailyLimit today (snd s) in
  if negb ok then ((fst s, t), failure "Daily token limit exceeded")
  else
    let (w, reply) := fetch (fst s) (baseURL cfg) (apiKey cfg)
                        (request_of cfg prompt options) in
    match reply with
    | Rejects msg => ((w, t), failure msg)
    | NotOk status errorText =>
        ((w, t), failure ("LLM API error: " +:+ pretty status +:+ " - " +:+
                          errorText))
    | Body c u =>
        match Encryption.truthy c with
        | None => ((w, t), failure "No content in LLM response")
        | Some text =>
            let estimated := calculateCost (model cfg) (prompt_tokens u)
                               (completion_tokens u) in
            ((w, updateCostTracker (total_tokens u) estimated t),
             {| success := true; response := Some text;
                usage := Some {| promptTokens := prompt_tokens u;
                                 completionTokens := completion_tokens u;
                                 totalTokens := total_tokens u;
                                 estimatedCost := estimated |};
                error := None |})
        end
    end.

(** A series of calls, with the results in order. *)
Record Call := {
  day : string;
  prompt : string;
  options : option Options
}.

Definition call_step (cfg : LLMConfig)
    (s : (W * CostTracker) * list CallResult) (c : Call)
    : (W * CostTracker) * list CallResult :=
  let (s', r) := callLLM cfg (day c) (prompt c) (options c) (fst s) in
  (s', snd s ++ [r]).

Definition calls_run (cfg : LLMConfig) (calls : list Call)
    (s : W * CostTracker) : (W * CostTracker) * list CallResult :=
  foldl (call_step cfg) (s, []) calls.

(** The tokens reported by a result. *)
Definition tokens_of (r : CallResult) : Z :=
  match usage r with
  | Some u => totalTokens u
  | None => 0
  end.

Definition successes (rs : list CallResult) : list CallResult :=
  filter (λ r, success r = true) rs.

(** Every response reports between [0] and [m] tokens. *)
Definition replies_within (m : Z) : Prop :=
  ∀ w url key req c u,
    snd (fetch w url key req) = Body c u → 0 ≤ total_tokens u ≤ m.

End Manager.

Arguments apiKey {Num}.
Arguments model {Num}.
Arguments maxTokens {Num}.
Arguments temperature {Num}.
Arguments baseURL {Num}.
Arguments totalTokensUsed {Num}.
Arguments totalCost {Num}.
Arguments requestCount {Num}.
Arguments dailyTokens {Num}.
Arguments dailyLimit {Num}.
Arguments lastResetDate {Num}.
Arguments success {Num}.
Arguments response {Num}.
Arguments usage {Num}.
Arguments error {Num}.
Arguments totalTokens {Num}.
Arguments day {Num}.
Arguments prompt {Num}.
Arguments options {Num}.
Arguments failure {Num}.
Arguments resetDailyUsage {Num}.
Arguments checkDailyLimit {Num}.
Arguments updateCostTracker {Num}.
Arguments request_of {Num}.
Arguments callLLM {Num} num_add num_falsy calculateCost {W}.
Arguments calls_run {Num} num_add num_falsy calculateCost {W}.
Arguments call_step {Num} num_add num_falsy calculateCost {W}.
Arguments tokens_of {Num}.
Arguments successes {Num}.
Arguments replies_within {Num W}.

(** Sample data: costs counted in tokens, and a network that answers every
    request with 500 tokens and counts the requests. *)
Definition sample_config : LLMConfig Z :=
  {| apiKey := "sk-or-dummy-key-replace-with-real-key";
     model := "anthropic/claude-sonnet-4"; maxTokens := 500;
     temperature := 7;
     baseURL := "https://openrouter.ai/api/v1/chat/completions" |}.

Definition sample_cost (m : string) (p c : Z) : Z := p + c.

Definition sample_fetch (w : nat) (url key : string) (req : LLMRequest Z)
    : nat * Reply :=
  (S w, Body (Some "Glad to help"%string)
          {| prompt_tokens := 400; completion_tokens := 100;
             total_tokens := 500 |}).

Definition sample_tracker : CostTracker Z :=
  initializeCostTracker Z 0 (Some 1000) "2025-01-15".

Definition sample_calls : list (Call Z) :=
  [ {| day := "2025-01-15"; prompt := "a"; options := None |};
    {| day := "2025-01-15"; prompt := "b"; options := None |};
    {| day := "2025-01-15"; prompt := "c"; options := None |} ].

End LLM.

(** ** Properties of the idempotency ledger *)

Module IdempotencyFacts.
Import Idempotency.

Section Check.
Variables (cfg : IdempotencyConfig) (now : Z) (aid cid atype : string).
Variable st : Store.

Lemma check_absent :
  st !! generateKey aid cid = None →
  checkIdempotency cfg now aid cid atype st =
    (st, {| canProceed := true; existingRecord := None; reason := None |}).
Proof. intros H. unfold checkIdempotency. by rewrite H. Qed.

Lemma check_expired r :
  st !! generateKey aid cid = Some r → expiresAt r < now →
  checkIdempotency cfg now aid cid atype st =
    (delete (generateKey aid cid) st,
     {| canProceed := true; existingRecord := None; reason := None |}).
Proof.
  intros H Hlt. unfold checkIdempotency, expired. rewrite H.
  by destruct (Z.ltb_spec (expiresAt r) now); [|lia].
Qed.

Lemma check_live r :
  st !! generateKey aid cid = Some r → now ≤ expiresAt r →
  checkIdempotency cfg now aid cid atype st =
    (st,
     match status r with
     | pending =>
         {| canProceed := false; existingRecord := Some r;
            reason := Some "Action is still in progress"%string |}
     | completed =>
         {| canProceed := false; existingRecord := Some r;
            reason := Some "Action already completed"%string |}
     | failed =>
         if maxRetries cfg <=? retryCount_of r then
           {| canProceed := false; existingRecord := Some r;
              reason := Some "Max retries exceeded"%string |}
         else
           {| canProceed := true; existingRecord := Some r;
              reason := None |}
     end).
Proof.
  intros H Hle. unfold checkIdempotency, expired. rewrite H.
  destruct (Z.ltb_spec (expiresAt r) now); [lia|].
  destruct (status r); try done.
  by destruct (maxRetries cfg <=? retryCount_of r).
Qed.
End Check.

(** C2.  [checkIdempotency] lets the caller proceed when the key has no
    record, or when its record has [expiresAt] in the past, and then the
    record is deleted.  For a record that has not expired: a pending one
    refuses with an "in progress" reason; a completed one refuses with an
    "already completed" reason and hands out the record, whose [result] is
    the cached one; a failed one refuses with "max retries exceeded" when its
    [retryCount] has reached [maxRetries], and lets the caller proceed
    otherwise.  In all cases but the expired one the store is unchanged. *)
Theorem checkIdempotency_spec :
  ∀ (cfg : IdempotencyConfig) (now : Z) (aid cid atype : string) (st : Store),
    let key := generateKey aid cid in
    let out := checkIdempotency cfg now aid cid atype st in
    (st !! key = None → out.1 = st ∧ canProceed out.2 = true) ∧
    (∀ r, st !! key = Some r → expiresAt r < now →
       out.1 = delete key st ∧ out.1 !! key = None ∧
       canProceed out.2 = true) ∧
    (∀ r, st !! key = Some r → now ≤ expiresAt r →
       out.1 = st ∧
       match status r with
       | pending =>
           canProceed out.2 = false ∧
           reads_as "in progress" (reason out.2)
       | completed =>
           canProceed out.2 = false ∧
           reads_as "already completed" (reason out.2) ∧
           existingRecord out.2 = Some r ∧
           existingRecord out.2 ≫= result = result r
       | failed =>
           (maxRetries cfg ≤ retryCount_of r →
              canProceed out.2 = false ∧
              reads_as "max retries exceeded" (reason out.2)) ∧
           (retryCount_of r < maxRetries cfg → canProceed out.2 = true)
       end).
Proof.
  intros cfg now aid cid atype st key out. subst out key.
  split; [|split].
  - intros H. by rewrite check_absent.
  - intros r H Hlt. rewrite (check_expired _ _ _ _ _ _ r) by done.
    simpl. split; [done|]. split; [apply lookup_delete_eq | done].
  - intros r H Hle. rewrite (check_live _ _ _ _ _ _ r) by done.
    simpl. split; [done|].
    destruct (status r); simpl.
    + split; [done|]. by eexists.
    + split; [done|]. split; [by eexists | done].
    + split.
      * intros Hge. destruct (Z.leb_spec (maxRetries cfg) (retryCount_of r));
          [|lia]. split; [done | by eexists].
      * intros Hlt. destruct (Z.leb_spec (maxRetries cfg) (retryCount_of r));
          [lia | done].
Qed.

Lemma checkIdempotency_spec_witness :
  let st : Store := {[ generateKey "refund-1" "cust-7" := sample_failed 3 ]} in
  let out := checkIdempotency default_config 1000 "refund-1" "cust-7" "refund" st in
  canProceed out.2 = false ∧ reads_as "max retries exceeded" (reason out.2).
Proof.
  intros st out.
  destruct (checkIdempotency_spec default_config 1000 "refund-1" "cust-7"
              "refund" st) as (_ & _ & H).
  destruct (H (sample_failed 3)) as [_ [Hmax _]].
  - vm_compute. reflexivity.
  - vm_compute. discriminate.
  - apply Hmax. vm_compute. discriminate.
Defined.

(** *** [executeWithIdempotency] *)

Section Execute.
Variables (cfg : IdempotencyConfig) (aid cid : string).
Let key := generateKey aid cid.

Lemma begin_absent now atype md (st : Store) :
  st !! key = None →
  execute_begin cfg now aid cid atype md st =
    ((storeAction cfg now aid cid atype md st).1, Invoked).
Proof.
  intros H. unfold execute_begin. by rewrite check_absent.
Qed.

Lemma begin_live now atype md (st : Store) r :
  st !! key = Some r → now ≤ expiresAt r →
  execute_begin cfg now aid cid atype md st =
    match status r with
    | pending =>
        (st, Returned {| exec_success := false; exec_result := None;
                         exec_fromCache := false;
                         exec_error :=
                           Some "Action is still in progress"%string |})
    | completed =>
        (st, Returned {| exec_success := true; exec_result := result r;
                         exec_fromCache := true; exec_error := None |})
    | failed =>
        if maxRetries cfg <=? retryCount_of r then
          (st, Returned {| exec_success := false; exec_result := None;
                           exec_fromCache := false;
                           exec_error :=
                             Some "Max retries exceeded"%string |})
        else ((storeAction cfg now aid cid atype md st).1, Invoked)
    end.
Proof.
  intros H Hle. unfold execute_begin.
  rewrite (check_live _ _ _ _ _ _ r) by done.
  destruct (status r) eqn:Hs; simpl; rewrite ?Hs; try done.
  destruct (maxRetries cfg <=? retryCount_of r); simpl; rewrite ?Hs; done.
Qed.

Lemma begin_expired now atype md (st : Store) r :
  st !! key = Some r → expiresAt r < now →
  execute_begin cfg now aid cid atype md st =
    ((storeAction cfg now aid cid atype md (delete key st)).1, Invoked).
Proof.
  intros H Hlt. unfold execute_begin.
  by rewrite (check_expired _ _ _ _ _ _ r).
Qed.

Lemma storeAction_lookup now atype md (st : Store) :
  (storeAction cfg now aid cid atype md st).1 !! key =
    Some (storeAction cfg now aid cid atype md st).2.
Proof. unfold storeAction. simpl. apply lookup_insert_eq. Qed.

(** When the check lets the caller proceed, the first block stores a
    pending record that expires [ttlMs] after [now] and calls the action. *)
Lemma begin_proceeds now atype md (st : Store) :
  canProceed (checkIdempotency cfg now aid cid atype st).2 = true →
  ∃ st1 r,
    execute_begin cfg now aid cid atype md st = (st1, Invoked) ∧
    st1 !! key = Some r ∧ status r = pending ∧
    expiresAt r = now + ttlMs cfg ∧ metadata r = md.
Proof.
  intros Hc. unfold execute_begin.
  destruct (checkIdempotency cfg now aid cid atype st) as [st1 chk].
  simpl in Hc. rewrite Hc. simpl.
  eexists _, _. split; [done|]. split; [apply storeAction_lookup|done].
Qed.

(** The second block marks the record according to the outcome. *)
Lemma settle_marks now o (st : Store) r :
  st !! key = Some r →
  ∃ r',
    (execute_settle now aid cid o st).1 !! key = Some r' ∧
    (execute_settle now aid cid o st).2 = outcome_result o ∧
    expiresAt r' = expiresAt r ∧
    status r' = match o with Resolves _ => completed | _ => failed end ∧
    match o with
    | Resolves _ => metadata r' = metadata r
    | _ => retryCount_of r' = retryCount_of r + 1
    end.
Proof.
  intros H. unfold execute_settle, markCompleted, markFailed.
  fold key. destruct o as [v0| |]; rewrite H; simpl;
    rewrite lookup_insert_eq;
    eexists; (split; [reflexivity|]); repeat split; done.
Qed.

Lemma phase_run_app p evs1 evs2 :
  phase_run p (evs1 ++ evs2) = phase_run p evs1 ≫= λ p', phase_run p' evs2.
Proof.
  revert p. induction evs1 as [|e evs1 IH]; intros p; simpl; [done|].
  destruct (phase_step p e); simpl; [apply IH | done].
Qed.

Lemma phase_run_successes p p' evs :
  phase_run p evs = Some p' →
  (length (filter (λ e, is_success e) evs) ≤
     match p with Done => 0 | _ => 1 end)%nat.
Proof.
  revert p. induction evs as [|e evs IH]; intros p; simpl.
  { intros _. destruct p; simpl; lia. }
  destruct e as [r| |r]; destruct p; simpl; try discriminate;
    intros Hrun; rewrite ?filter_cons; simpl.
  all: try (apply IH in Hrun; simpl in Hrun;
            repeat case_decide; simpl; try done; lia).
  destruct (exec_success r) eqn:Hs; apply IH in Hrun; simpl in Hrun;
    case_decide as Hd; simpl; rewrite ?Hs in Hd; simpl in Hd;
    try done; lia.
Qed.

Lemma cleanup_lookup now (st : Store) k :
cleanupExpiredRecords now st !! k =
  match st !! k with
  | Some r => if expired now r then None else Some r
  | None => None
  end.
Proof.
  unfold cleanupExpiredRecords.
  destruct (st !! k) as [r|] eqn:Hk.
  - destruct (expired now r) eqn:He.
    + apply map_lookup_filter_None. right. intros r' Hr'. simpl.
      rewrite Hk in Hr'. injection Hr' as <-. by rewrite He.
    + apply map_lookup_filter_Some. by split.
  - apply map_lookup_filter_None. by left.
Qed.

Lemma cleanup_keeps_live now wend (st : Store) k r :
st !! k = Some r → now ≤ wend → wend ≤ expiresAt r →
cleanupExpiredRecords now st !! k = Some r.
Proof.
  intros Hk Hle Hexp. rewrite cleanup_lookup, Hk. unfold expired.
  by destruct (Z.ltb_spec (expiresAt r) now); [lia|].
Qed.

Lemma session_step_inv wend i p s :
  session_inv key wend p s →
  input_time i ≤ wend → wend ≤ input_time i + ttlMs cfg →
  ∃ p', phase_run p (session_step cfg aid cid i s).2 = Some p' ∧
        session_inv key wend p' (session_step cfg aid cid i s).1.
Proof.
  intros Hinv Hle Hge. destruct i as [now atype md | now o | now];
    simpl in *.
  - (* a caller enters *)
    destruct p; simpl in Hinv.
    + destruct Hinv as [Hn [Habs | (r & Hr & Hst & Hexp)]].
      * rewrite begin_absent by done. simpl. exists Running. split; [done|].
        simpl. split; [lia|]. eexists. split; [apply storeAction_lookup|].
        simpl. split; [done | lia].
      * rewrite (begin_live _ _ _ _ r) by (done || lia). rewrite Hst.
        destruct (maxRetries cfg <=? retryCount_of r); simpl.
        -- exists Idle. split; [done|]. simpl. split; [done|]. right.
           by exists r.
        -- exists Running. split; [done|]. simpl. split; [lia|].
           eexists. split; [apply storeAction_lookup|].
           simpl. split; [done | lia].
    + destruct Hinv as [Hn (r & Hr & Hst & Hexp)].
      rewrite (begin_live _ _ _ _ r) by (done || lia). rewrite Hst. simpl.
      exists Running. split; [done|]. simpl. split; [done|]. by exists r.
    + destruct Hinv as [Hn (r & Hr & Hst & Hexp)].
      rewrite (begin_live _ _ _ _ r) by (done || lia). rewrite Hst. simpl.
      exists Done. split; [done|]. simpl. split; [done|]. by exists r.
  - (* a running action settles *)
    destruct p; simpl in Hinv.
    + destruct Hinv as [Hn Hrec]. rewrite Hn. simpl. exists Idle.
      split; [done|]. simpl. by split.
    + destruct Hinv as [Hn (r & Hr & Hst & Hexp)]. rewrite Hn.
      destruct (settle_marks now o _ r Hr) as (r' & Hr' & Hres & He & Hs & _).
      destruct (execute_settle now aid cid o (ledger s)) as [st2 res].
      simpl in *. subst res.
      destruct o; simpl.
      * exists Done. split; [done|]. simpl. split; [done|].
        exists r'. repeat split; try done. lia.
      * exists Idle. split; [done|]. simpl. split; [done|]. right.
        exists r'. repeat split; try done. lia.
      * exists Idle. split; [done|]. simpl. split; [done|]. right.
        exists r'. repeat split; try done. lia.
    + destruct Hinv as [Hn Hrec]. rewrite Hn. simpl. exists Done.
      split; [done|]. simpl. by split.
  - (* the cleanup timer runs *)
    exists p. split; [done|].
    destruct p; simpl in *; destruct Hinv as [Hn Hrec]; (split; [done|]).
    + destruct Hrec as [Habs | (r & Hr & Hst & Hexp)].
      * left. by rewrite cleanup_lookup, Habs.
      * right. exists r. by rewrite (cleanup_keeps_live now wend _ _ r).
    + destruct Hrec as (r & Hr & Hst & Hexp).
      exists r. by rewrite (cleanup_keeps_live now wend _ _ r).
    + destruct Hrec as (r & Hr & Hst & Hexp).
      exists r. by rewrite (cleanup_keeps_live now wend _ _ r).
Qed.

Lemma session_run_inv wend inputs p s :
  session_inv key wend p s → in_window cfg wend inputs →
  ∃ p', phase_run p (session_run cfg aid cid inputs s).2 = Some p' ∧
        session_inv key wend p' (session_run cfg aid cid inputs s).1.
Proof.
  revert p s. induction inputs as [|i inputs IH]; intros p s Hinv Hwin.
  { exists p. by split. }
  apply Forall_cons in Hwin as [[Hle Hge] Hwin]. simpl.
  destruct (session_step_inv wend i p s Hinv Hle Hge) as (p1 & Hp1 & Hinv1).
  destruct (session_step cfg aid cid i s) as [s1 evs1]. simpl in *.
  destruct (IH p1 s1 Hinv1 Hwin) as (p2 & Hp2 & Hinv2).
  destruct (session_run cfg aid cid inputs s1) as [s2 evs2]. simpl in *.
  exists p2. split; [|done]. rewrite phase_run_app, Hp1. done.
Qed.
End Execute.

(** Two callers, one invocation: the second caller is refused while the
    action runs, and a third one gets the cached result. *)
Example session_example :
  (session_run default_config "refund-1" "cust-7"
     [Call 0 "refund" None; Call 10 "refund" None;
      Settle 200 (Resolves "ok"); Call 300 "refund" None]
     {| ledger := ∅; inflight := 0 |}).2 =
  [EvInvoked;
   EvReturned {| exec_success := false; exec_result := None;
                 exec_fromCache := false;
                 exec_error := Some "Action is still in progress"%string |};
   EvSettled {| exec_success := true; exec_result := Some (Value "ok");
                exec_fromCache := false; exec_error := None |};
   EvReturned {| exec_success := true; exec_result := Some (Value "ok");
                 exec_fromCache := true; exec_error := None |}].
Proof. vm_compute. reflexivity. Qed.

(** C1.  For a pair [(aid, cid)], a call of [executeWithIdempotency] does one
    of three things.  When the key has a completed record that has not
    expired, it returns the cached result and leaves the world of the action
    and the ledger as they are: the action is not invoked.  When the check
    refuses for another reason, it returns a failure that carries the reason
    of the check, again without invoking the action.  Otherwise it stores a
    pending record, invokes the action exactly once, returns the outcome of
    the action and leaves the record completed or failed according to that
    outcome.
    Consequently, in every interleaving of calls for the pair, of running
    actions settling and of cleanup sweeps, all within one TTL window and
    starting without a record, an action is invoked only when none is
    running and none has succeeded, so at most one invocation succeeds. *)
Theorem executeWithIdempotency_effective_once :
  ∀ (cfg : IdempotencyConfig) (aid cid : string),
    let key := generateKey aid cid in
    (∀ (W : Type) (actionFunction : W → W * ActionOutcome)
       (now now' : Z) (atype : string) (md : option Metadata)
       (st : Store) (w : W),
       let chk := (checkIdempotency cfg now aid cid atype st).2 in
       let started := execute_begin cfg now aid cid atype md st in
       let out := executeWithIdempotency cfg now now' aid cid atype
                    actionFunction md (st, w) in
       (∀ r, st !! key = Some r → now ≤ expiresAt r → status r = completed →
          out = ((st, w),
                 {| exec_success := true; exec_result := result r;
                    exec_fromCache := true; exec_error := None |})) ∧
       (canProceed chk = false →
        status <$> existingRecord chk ≠ Some completed →
          ∃ msg, reason chk = Some msg ∧
            out = ((st, w),
                   {| exec_success := false; exec_result := None;
                      exec_fromCache := false; exec_error := Some msg |})) ∧
       (canProceed chk = true →
          started.2 = Invoked ∧
          status <$> started.1 !! key = Some pending ∧
          out.1.2 = (actionFunction w).1 ∧
          out.2 = outcome_result (actionFunction w).2 ∧
          status <$> out.1.1 !! key =
            Some (match (actionFunction w).2 with
                  | Resolves _ => completed
                  | _ => failed
                  end))) ∧
    (∀ (wend : Z) (inputs : list Input) (st : Store),
       st !! key = None → in_window cfg wend inputs →
       let evs := (session_run cfg aid cid inputs
                     {| ledger := st; inflight := 0 |}).2 in
       effective_once evs = true ∧
       (length (filter (λ e, is_success e) evs) ≤ 1)%nat).
Proof.
  intros cfg aid cid key. subst key. split.
  - intros W actionFunction now now' atype md st w chk started out.
    subst chk started out. unfold executeWithIdempotency. simpl.
    split; [|split].
    + intros r Hr Hle Hst.
      rewrite (begin_live _ _ _ _ _ _ _ r) by done. by rewrite Hst.
    + intros Hc Hnc. unfold execute_begin.
      destruct (st !! generateKey aid cid) as [r|] eqn:Hr.
      2:{ rewrite check_absent in Hc by done. done. }
      destruct (Z.lt_ge_cases (expiresAt r) now) as [Hlt|Hge].
      { rewrite (check_expired _ _ _ _ _ _ r) in Hc by done. done. }
      rewrite (check_live _ _ _ _ _ _ r) in Hc, Hnc |- * by done.
      simpl in *. destruct (status r) eqn:Hst; simpl in *.
      * eexists. split; [done|]. by rewrite Hst.
      * by rewrite Hst in Hnc.
      * destruct (maxRetries cfg <=? retryCount_of r); simpl in *; [|done].
        eexists. split; [done|]. by rewrite Hst.
    + intros Hc.
      destruct (begin_proceeds cfg aid cid now atype md st Hc)
        as (st1 & r & Hb & Hr & Hst & _).
      rewrite Hb. simpl. split; [done|]. split; [by rewrite Hr, <- Hst|].
      destruct (actionFunction w) as [w' o]. simpl.
      destruct (settle_marks aid cid now' o st1 r Hr)
        as (r' & Hr' & Hres & _ & Hs & _).
      destruct (execute_settle now' aid cid o st1) as [st2 res]. simpl in *.
      split; [done|]. split; [done|]. rewrite Hr'. simpl. by rewrite Hs.
  - intros wend inputs st Habs Hwin evs. subst evs.
    destruct (session_run_inv cfg aid cid wend inputs Idle
                {| ledger := st; inflight := 0 |}) as (p' & Hrun & _).
    { simpl. split; [done|]. by left. }
    { done. }
    split.
    + unfold effective_once. apply bool_decide_eq_true. by exists p'.
    + by apply phase_run_successes in Hrun.
Qed.

Lemma executeWithIdempotency_effective_once_witness :
  let inputs :=
    [Call 0 "refund" None; Call 10 "refund" None; Sweep 100;
     Settle 200 (Resolves "ok"); Call 300 "refund" None] in
  let evs := (session_run default_config "refund-1" "cust-7" inputs
                {| ledger := ∅; inflight := 0 |}).2 in
  effective_once evs = true ∧
  (length (filter (λ e, is_success e) evs) ≤ 1)%nat.
Proof.
  intros inputs evs.
  apply (proj2 (executeWithIdempotency_effective_once default_config
                  "refund-1" "cust-7") 1000 inputs ∅).
  - reflexivity.
  - unfold in_window, inputs. repeat constructor; simpl; vm_compute; discriminate.
Defined.

(** *** The storage key *)

Lemma generateKey_inj_customer (aid1 aid2 cid : string) :
  generateKey aid1 cid = generateKey aid2 cid → aid1 = aid2.
Proof.
  unfold generateKey. induction cid as [|c cid IH]; simpl; intros H.
  - by injection H.
  - injection H as H. by apply IH.
Qed.

(** Customer ids without a colon give distinct keys to distinct pairs. *)
Lemma generateKey_inj (aid1 cid1 aid2 cid2 : string) :
  has_colon cid1 = false → has_colon cid2 = false →
  generateKey aid1 cid1 = generateKey aid2 cid2 →
  aid1 = aid2 ∧ cid1 = cid2.
Proof.
  unfold generateKey. revert cid2.
  induction cid1 as [|c1 cid1 IH]; intros [|c2 cid2]; simpl;
    intros H1 H2 Heq.
  - by injection Heq.
  - injection Heq as <- _. apply orb_false_iff in H2 as [H2 _].
    by apply bool_decide_eq_false in H2.
  - injection Heq as -> _. apply orb_false_iff in H1 as [H1 _].
    by apply bool_decide_eq_false in H1.
  - injection Heq as -> Heq.
    apply orb_false_iff in H1 as [_ H1]. apply orb_false_iff in H2 as [_ H2].
    destruct (IH cid2 H1 H2 Heq) as [-> ->]. done.
Qed.

Example generateKey_example :
  generateKey "refund-1" "cust-7" = "cust-7:refund-1".
Proof. reflexivity. Qed.

(** C8.  The key is not injective on pairs of strings: a colon in the
    customer id moves the boundary between the two parts.  The action
    ["eu:42"] of customer ["acme"] and the action ["42"] of customer
    ["acme:eu"] are stored under the same key, and once the first has
    completed, a call for the second is answered from the record of the
    first, without invoking its own action. *)
Theorem generateKey_collision :
  ("eu:42", "acme") ≠ ("42", "acme:eu") ∧
  generateKey "eu:42" "acme" = generateKey "42" "acme:eu" ∧
  let s1 :=
    (executeWithIdempotency default_config 0 100 "eu:42" "acme" "refund"
       (counting_action "refunded acme") None (∅, 0%nat)).1 in
  executeWithIdempotency default_config 200 300 "42" "acme:eu" "refund"
    (counting_action "refunded acme:eu") None s1 =
    (s1, {| exec_success := true;
            exec_result := Some (Value "refunded acme");
            exec_fromCache := true; exec_error := None |}).
Proof.
  split; [discriminate|]. split; [reflexivity|]. vm_compute. reflexivity.
Qed.

(** *** The retry budget across calls *)

Section Budget.
Context {W : Type}.
Variables (cfg : IdempotencyConfig) (aid cid : string).
Variable actionFunction : W → W * ActionOutcome.
Hypothesis budget : 2 ≤ maxRetries cfg.
Hypothesis fails : always_fails actionFunction.
Let key := generateKey aid cid.

Lemma failed_once_proceeds now atype (st : Store) :
  st !! key = None ∨ failed_once key st →
  canProceed (checkIdempotency cfg now aid cid atype st).2 = true.
Proof.
  intros [Habs | (r & Hr & Hst & Hrc)].
  - by rewrite check_absent.
  - destruct (Z.lt_ge_cases (expiresAt r) now) as [Hlt|Hge].
    + by rewrite (check_expired _ _ _ _ _ _ r).
    + rewrite (check_live _ _ _ _ _ _ r) by done. rewrite Hst, Hrc.
      simpl. by destruct (Z.leb_spec (maxRetries cfg) 1); [lia|].
Qed.

Lemma failing_call c (st : Store) (w : W) :
  st !! key = None ∨ failed_once key st → no_retryCount c →
  ∃ st',
    executeWithIdempotency cfg (call_now c) (call_settled c) aid cid
      (call_type c) actionFunction (call_metadata c) (st, w) =
      ((st', (actionFunction w).1), outcome_result (actionFunction w).2) ∧
    failed_once key st'.
Proof.
  intros Hinv Hmd.
  destruct (begin_proceeds cfg aid cid (call_now c) (call_type c)
              (call_metadata c) st
              (failed_once_proceeds _ _ _ Hinv))
    as (st1 & r & Hb & Hr & Hst & _ & Hmeta).
  unfold executeWithIdempotency. simpl. rewrite Hb.
  specialize (fails w). destruct (actionFunction w) as [w' o]. simpl in *.
  destruct (settle_marks aid cid (call_settled c) o st1 r Hr)
    as (r' & Hr' & Hres & _ & Hs & Hrc).
  destruct (execute_settle (call_settled c) aid cid o st1) as [st2 res].
  simpl in *. subst res. exists st2. split; [done|]. exists r'.
  assert (retryCount_of r = 0) as H0.
  { unfold retryCount_of. rewrite Hmeta. unfold no_retryCount in Hmd.
    destruct (call_metadata c) as [m|]; [by rewrite Hmd | done]. }
  destruct o as [v| |]; [by destruct (fails v) | |];
    (split; [done|]); (split; [done|]); lia.
Qed.

Lemma iter_shift (n : nat) (w : W) :
  Nat.iter n (λ w, (actionFunction w).1) (actionFunction w).1 =
  (actionFunction (Nat.iter n (λ w, (actionFunction w).1) w)).1.
Proof. induction n as [|n IHn]; simpl; [done | by rewrite IHn]. Qed.

Lemma failing_calls calls (st : Store) (w : W) :
  failed_once key st → Forall no_retryCount calls →
  every_call_invokes cfg aid cid actionFunction calls (st, w) ∧
  failed_once key (run_calls cfg aid cid actionFunction calls (st, w)).1.1.
Proof.
  revert st w. induction calls as [|c calls IH]; intros st w Hinv Hmd.
  { split; [|done]. split; [done | constructor]. }
  apply Forall_cons in Hmd as [Hc Hmd].
  destruct (failing_call c st w (or_intror Hinv) Hc)
    as (st' & Hcall & Hinv').
  destruct (IH st' (actionFunction w).1 Hinv' Hmd) as [[Hw Hrs] Hfin].
  unfold every_call_invokes in *. simpl in *. rewrite Hcall.
  destruct (run_calls cfg aid cid actionFunction calls
              (st', (actionFunction w).1)) as [s2 rs]. simpl in *.
  split; [|done]. split.
  - rewrite Hw. apply iter_shift.
  - constructor; [by eexists | done].
Qed.

Lemma failing_calls_fresh c calls (st : Store) (w : W) :
  st !! key = None → Forall no_retryCount (c :: calls) →
  every_call_invokes cfg aid cid actionFunction (c :: calls) (st, w) ∧
  failed_once key
    (run_calls cfg aid cid actionFunction (c :: calls) (st, w)).1.1.
Proof.
  intros Habs Hmd. apply Forall_cons in Hmd as [Hc Hmd].
  destruct (failing_call c st w (or_introl Habs) Hc)
    as (st' & Hcall & Hinv').
  destruct (failing_calls calls st' (actionFunction w).1 Hinv' Hmd)
    as [[Hw Hrs] Hfin].
  unfold every_call_invokes in *. simpl in *. rewrite Hcall.
  destruct (run_calls cfg aid cid actionFunction calls
              (st', (actionFunction w).1)) as [s2 rs]. simpl in *.
  split; [|done]. split.
  - rewrite Hw. apply iter_shift.
  - constructor; [by eexists | done].
Qed.
End Budget.

(** C10 as found in the code.  With a retry budget of at least 2, the budget
    of a failed record never runs out through [executeWithIdempotency]
    alone: [storeAction] replaces the metadata with what the caller passes,
    so after every failure the count is 1 again.  For every run of calls
    whose action always fails and whose callers pass no [retryCount], every
    call invokes the action and returns its failure, and the record is left
    failed with count 1. *)
Theorem retry_budget_not_accumulated :
  ∀ (W : Type) (cfg : IdempotencyConfig) (aid cid : string)
    (actionFunction : W → W * ActionOutcome) (calls : list CallArgs)
    (st : Store) (w : W),
    2 ≤ maxRetries cfg →
    always_fails actionFunction →
    Forall no_retryCount calls →
    st !! generateKey aid cid = None →
    every_call_invokes cfg aid cid actionFunction calls (st, w) ∧
    (calls ≠ [] →
     failed_once (generateKey aid cid)
       (run_calls cfg aid cid actionFunction calls (st, w)).1.1).
Proof.
  intros W cfg aid cid actionFunction calls st w Hb Hf Hmd Habs.
  destruct calls as [|c calls].
  { split; [|done]. split; [done | constructor]. }
  destruct (failing_calls_fresh cfg aid cid actionFunction Hb Hf c calls st w
              Habs Hmd) as [Hall Hfin].
  split; [done|]. intros _. exact Hfin.
Qed.

Lemma retry_budget_not_accumulated_witness :
  every_call_invokes default_config "refund-1" "cust-7"
    (failing_action "gateway down")
    [sample_call 0; sample_call 1000; sample_call 2000; sample_call 3000;
     sample_call 4000]
    (∅, 0%nat).
Proof.
  apply (retry_budget_not_accumulated nat default_config "refund-1" "cust-7"
           (failing_action "gateway down")
           [sample_call 0; sample_call 1000; sample_call 2000;
            sample_call 3000; sample_call 4000] ∅ 0%nat).
  - vm_compute. discriminate.
  - intros w v. discriminate.
  - repeat constructor.
  - reflexivity.
Defined.

(** C10 as stated fails for a budget of 1 (and of 0): the first failure
    leaves the count at 1, which already reaches [maxRetries], so the second
    call is refused with "Max retries exceeded" and the action runs once. *)
Lemma retry_budget_exhausted_at_one :
  let calls := [sample_call 0; sample_call 1000] in
  let out := run_calls budget_one "refund-1" "cust-7"
               (failing_action "gateway down") calls (∅, 0%nat) in
  always_fails (failing_action "gateway down") ∧
  Forall no_retryCount calls ∧
  out.1.2 = 1%nat ∧
  exec_error <$> out.2 =
    [Some "gateway down"%string; Some "Max retries exceeded"%string] ∧
  ¬ every_call_invokes budget_one "refund-1" "cust-7"
      (failing_action "gateway down") calls (∅, 0%nat).
Proof.
  intros calls out. split; [intros w v; discriminate|].
  split; [repeat constructor|].
  split; [vm_compute; reflexivity|].
  split; [vm_compute; reflexivity|].
  intros [Hw _]. vm_compute in Hw. discriminate.
Qed.

End IdempotencyFacts.

(** ** Properties of the message broker *)

Module MessageBrokerFacts.
Import MessageBroker.

(** *** The dead letter queue *)

(** Case analysis on the condition of the [if] in the goal. *)
Ltac case_if :=
  match goal with
  | |- context [if ?c then _ else _] => destruct c eqn:?
  end.

Lemma moveToDeadLetterQueue_full m b old rest :
  deadLetterQueue b = old :: rest →
  deadLetterQueueSize (config b) ≤ Z.of_nat (length (old :: rest)) →
  deadLetterQueue (moveToDeadLetterQueue m b) = rest ++ [m].
Proof.
  intros Hq Hfull. unfold moveToDeadLetterQueue. simpl. rewrite Hq.
  by destruct (Z.leb_spec (deadLetterQueueSize (config b))
                 (Z.of_nat (length (old :: rest)))); [|lia].
Qed.

Lemma moveToDeadLetterQueue_room m b :
  Z.of_nat (length (deadLetterQueue b)) < deadLetterQueueSize (config b) →
  deadLetterQueue (moveToDeadLetterQueue m b) = deadLetterQueue b ++ [m].
Proof.
  intros Hroom. unfold moveToDeadLetterQueue. simpl.
  by destruct (Z.leb_spec (deadLetterQueueSize (config b))
                 (Z.of_nat (length (deadLetterQueue b)))); [lia|].
Qed.

Lemma moveToDeadLetterQueue_bounded m b :
  0 < deadLetterQueueSize (config b) →
  dlq_bounded b → dlq_bounded (moveToDeadLetterQueue m b).
Proof.
  unfold dlq_bounded. intros Hpos Hb.
  destruct (Z.lt_ge_cases (Z.of_nat (length (deadLetterQueue b)))
              (deadLetterQueueSize (config b))) as [Hroom|Hfull].
  - rewrite moveToDeadLetterQueue_room by done.
    rewrite length_app. simpl. lia.
  - destruct (deadLetterQueue b) as [|old rest] eqn:Hq; [simpl in *; lia|].
    rewrite (moveToDeadLetterQueue_full m b old rest) by done.
    rewrite length_app. simpl in *. lia.
Qed.

Lemma moveToDeadLetterQueue_last m b :
  last (deadLetterQueue (moveToDeadLetterQueue m b)) = Some m.
Proof. unfold moveToDeadLetterQueue. simpl. apply last_snoc. Qed.

Lemma handleFailedMessage_dlq_bounded now m b :
  0 < deadLetterQueueSize (config b) →
  dlq_bounded b → dlq_bounded (handleFailedMessage now m b).
Proof.
  intros Hpos Hb. unfold handleFailedMessage.
  destruct (Z.of_nat (next_retryCount m) <=? maxRetries (config b));
    [done | by apply moveToDeadLetterQueue_bounded].
Qed.

Lemma handleFailedMessage_config now m b :
  config (handleFailedMessage now m b) = config b.
Proof.
  unfold handleFailedMessage.
  by destruct (Z.of_nat (next_retryCount m) <=? maxRetries (config b)).
Qed.

Lemma loop_head_dlq b :
  deadLetterQueue (loop_head b) = deadLetterQueue b ∧
  config (loop_head b) = config b.
Proof. unfold loop_head. by destruct (messageQueue b). Qed.

Lemma processQueue_dlq b :
  deadLetterQueue (processQueue b) = deadLetterQueue b ∧
  config (processQueue b) = config b.
Proof. unfold processQueue. by destruct (loop_head_dlq
  {| messageQueue := messageQueue b; deadLetterQueue := deadLetterQueue b;
     processing := true; config := config b; current := current b;
     timers := timers b |}). Qed.

Lemma dlq_bounded_ext b b' :
  deadLetterQueue b' = deadLetterQueue b → config b' = config b →
  dlq_bounded b → dlq_bounded b'.
Proof. unfold dlq_bounded. by intros -> ->. Qed.

Lemma step_config e b : config (step e b) = config b.
Proof.
  destruct e as [newId now message | ok now | now i | messageId]; simpl.
  - case_if;
      [done | by rewrite (proj2 (processQueue_dlq _))].
  - unfold handler_settles. destruct (current b) as [m|]; [|done].
    rewrite (proj2 (loop_head_dlq _)).
    destruct ok; [done | by rewrite handleFailedMessage_config].
  - unfold timer_fires. destruct (timers b !! i) as [[due m]|]; [|done].
    by destruct (due <=? now).
  - unfold retryDeadLetterMessage.
    destruct (findIndex messageId (deadLetterQueue b)) as [i|]; [|done].
    destruct (deadLetterQueue b !! i) as [m|]; [|done]. simpl.
    case_if;
      [done | by rewrite (proj2 (processQueue_dlq _))].
Qed.

Lemma step_dlq_bounded e b :
  0 < deadLetterQueueSize (config b) →
  dlq_bounded b → dlq_bounded (step e b).
Proof.
  intros Hpos Hb.
  destruct e as [newId now message | ok now | now i | messageId]; simpl.
  - case_if;
      [done|]. eapply dlq_bounded_ext; [apply processQueue_dlq ..|done].
  - unfold handler_settles. destruct (current b) as [m|]; [|done].
    eapply dlq_bounded_ext; [apply loop_head_dlq ..|].
    destruct ok; [done|]. by apply handleFailedMessage_dlq_bounded.
  - unfold timer_fires. destruct (timers b !! i) as [[due m]|]; [|done].
    by destruct (due <=? now).
  - unfold retryDeadLetterMessage.
    destruct (findIndex messageId (deadLetterQueue b)) as [i|]; [|done].
    destruct (deadLetterQueue b !! i) as [m|] eqn:Hi; [|done]. simpl.
    assert (dlq_bounded
      {| messageQueue := messageQueue b ++ [set_retryCount m 0];
         deadLetterQueue := delete i (deadLetterQueue b);
         processing := processing b; config := config b;
         current := current b; timers := timers b |}) as Hb'.
    { unfold dlq_bounded in *. simpl.
      pose proof (length_delete (deadLetterQueue b) i (mk_is_Some _ _ Hi)).
      lia. }
    case_if;
      [done|]. eapply dlq_bounded_ext; [apply processQueue_dlq ..|done].
Qed.

Lemma run_snoc es e b : run (es ++ [e]) b = step e (run es b).
Proof. unfold run. by rewrite foldl_app. Qed.

Lemma run_config es b : config (run es b) = config b.
Proof.
  induction es as [|e es IH] using rev_ind; [done|].
  by rewrite run_snoc, step_config.
Qed.

Lemma run_dlq_bounded es b :
  0 < deadLetterQueueSize (config b) →
  dlq_bounded b → dlq_bounded (run es b).
Proof.
  intros Hpos Hb. induction es as [|e es IH] using rev_ind; [done|].
  rewrite run_snoc. apply step_dlq_bounded; [by rewrite run_config | done].
Qed.

(** C6.  With a positive capacity, the dead letter queue of a broker never
    holds more than [deadLetterQueueSize] messages, whatever is published,
    however handlers settle, whichever timers run and whatever is requeued;
    and moving a message to a queue that is at capacity removes the oldest
    entry and appends the new one. *)
Theorem dead_letter_queue_bounded :
  ∀ (cfg : MessageBrokerConfig),
    0 < deadLetterQueueSize cfg →
    (∀ es : list Event,
       Z.of_nat (length (deadLetterQueue (run es (new_broker cfg)))) ≤
         deadLetterQueueSize cfg) ∧
    (∀ (b : Broker) (m old : Message) (rest : list Message),
       config b = cfg → deadLetterQueue b = old :: rest →
       Z.of_nat (length (old :: rest)) = deadLetterQueueSize cfg →
       deadLetterQueue (moveToDeadLetterQueue m b) = rest ++ [m] ∧
       length (deadLetterQueue (moveToDeadLetterQueue m b)) =
         length (deadLetterQueue b)).
Proof.
  intros cfg Hpos. split.
  - intros es.
    pose proof (run_dlq_bounded es (new_broker cfg) Hpos) as H.
    unfold dlq_bounded in H. rewrite run_config in H. simpl in H.
    apply H. lia.
  - intros b m old rest Hcfg Hq Hlen. subst cfg.
    rewrite (moveToDeadLetterQueue_full m b old rest) by (done || lia).
    split; [done|]. rewrite Hq, length_app. simpl. lia.
Qed.

Lemma dead_letter_queue_bounded_witness :
  Z.of_nat (length (deadLetterQueue
                      (run three_failures (new_broker small_sink)))) ≤ 2.
Proof.
  apply (proj1 (dead_letter_queue_bounded small_sink eq_refl) three_failures).
Defined.

(** The third dead letter has pushed out the first. *)
Example three_failures_evict_oldest :
  id <$> deadLetterQueue (run three_failures (new_broker small_sink)) =
    ["msg_2"; "msg_3"]%string.
Proof. reflexivity. Qed.

(** *** Retries *)

Lemma handleFailedMessage_retry now m b :
  Z.of_nat (next_retryCount m) ≤ maxRetries (config b) →
  handleFailedMessage now m b =
    {| messageQueue := messageQueue b;
       deadLetterQueue := deadLetterQueue b;
       processing := processing b; config := config b;
       current := current b;
       timers := timers b ++
                 [(now + setTimeout_delay
                           (backoff_delay (config b) (next_retryCount m)),
                   set_retryCount m (next_retryCount m))] |}.
Proof.
  intros H. unfold handleFailedMessage.
  by destruct (Z.leb_spec (Z.of_nat (next_retryCount m))
                 (maxRetries (config b))); [|lia].
Qed.

Lemma handleFailedMessage_exhausted now m b :
  maxRetries (config b) < Z.of_nat (next_retryCount m) →
  handleFailedMessage now m b = moveToDeadLetterQueue m b.
Proof.
  intros H. unfold handleFailedMessage.
  by destruct (Z.leb_spec (Z.of_nat (next_retryCount m))
                 (maxRetries (config b))); [lia|].
Qed.

Example backoff_delay_default :
  backoff_delay default_config <$> [1; 2; 3]%nat = [1000; 2000; 4000].
Proof. reflexivity. Qed.

Lemma setTimeout_delay_in_range d :
  1 ≤ d ≤ TIMEOUT_MAX → setTimeout_delay d = d.
Proof.
  intros [H1 H2]. unfold setTimeout_delay.
  destruct (Z.leb_spec 1 d); [|lia].
  by destruct (Z.leb_spec d TIMEOUT_MAX); [|lia].
Qed.

Lemma setTimeout_delay_out_of_range d :
  ¬ (1 ≤ d ≤ TIMEOUT_MAX) → setTimeout_delay d = 1.
Proof.
  intros H. unfold setTimeout_delay.
  destruct (Z.leb_spec 1 d); [|done].
  by destruct (Z.leb_spec d TIMEOUT_MAX); [lia|].
Qed.




(** *** A message whose handler always fails *)

Lemma run_app es1 es2 b : run (es1 ++ es2) b = run es2 (run es1 b).
Proof. unfold run. by rewrite foldl_app. Qed.

Lemma first_publish_delivering cfg newId t0 input companion :
  run (first_publish newId t0 input companion) (new_broker cfg) =
    delivering cfg (set_retryCount (published newId t0 input) 0)
      (published companion.1 t0 companion.2).
Proof. reflexivity. Qed.

Lemma retry_round_delivering cfg m c (k : nat) companion r :
  Z.of_nat (S k) ≤ maxRetries cfg →
  run (retry_round cfg (S k) companion r)
      (delivering cfg (set_retryCount m k) c) =
    delivering cfg (set_retryCount m (S k))
      (published companion.1
         (r.1 + setTimeout_delay (backoff_delay cfg (S k))) companion.2).
Proof.
  intros Hle. unfold retry_round, run. cbn [foldl step].
  assert (handler_settles false r.1 (delivering cfg (set_retryCount m k) c) =
          {| messageQueue := []; deadLetterQueue := []; processing := true;
             config := cfg; current := Some c;
             timers := [(r.1 + setTimeout_delay (backoff_delay cfg (S k)),
                         set_retryCount m (S k))] |}) as ->.
  { unfold handler_settles. simpl.
    rewrite handleFailedMessage_retry
      by (unfold next_retryCount; simpl; lia).
    replace (next_retryCount (set_retryCount m k)) with (S k)
      by (unfold next_retryCount; simpl; lia).
    reflexivity. }
  unfold handler_settles, timer_fires. simpl. rewrite Z.leb_refl.
  reflexivity.
Qed.

Lemma retry_rounds_delivering cfg m companion rs :
  ∀ (k : nat) c,
    Z.of_nat (k + length rs) ≤ maxRetries cfg →
    ∃ c', run (retry_rounds cfg (S k) companion rs)
              (delivering cfg (set_retryCount m k) c) =
            delivering cfg (set_retryCount m (k + length rs)) c'.
Proof.
  induction rs as [|r rs IH]; intros k c Hle;
    cbn [retry_rounds length] in *.
  - exists c. by rewrite Nat.add_0_r.
  - rewrite run_app, retry_round_delivering by lia.
    destruct (IH (S k)
                (published companion.1
                   (r.1 + setTimeout_delay (backoff_delay cfg (S k)))
                   companion.2)) as [c' Hc']; [lia|].
    exists c'. rewrite Hc'. by replace (S k + length rs)%nat
      with (k + S (length rs))%nat by lia.
Qed.

Lemma last_failure_dead_letters cfg m c (k : nat) r :
  maxRetries cfg < Z.of_nat (S k) →
  run (last_failure r) (delivering cfg (set_retryCount m k) c) =
    {| messageQueue := []; deadLetterQueue := [set_retryCount m k];
       processing := false; config := cfg; current := None; timers := [] |}.
Proof.
  intros Hlt. unfold last_failure, run. cbn [foldl step].
  assert (handler_settles false r.1 (delivering cfg (set_retryCount m k) c) =
          {| messageQueue := []; deadLetterQueue := [set_retryCount m k];
             processing := true; config := cfg; current := Some c;
             timers := [] |}) as ->.
  { unfold handler_settles. simpl.
    rewrite handleFailedMessage_exhausted
      by (unfold next_retryCount; simpl; lia).
    unfold moveToDeadLetterQueue. simpl.
    by destruct (deadLetterQueueSize cfg <=? _). }
  reflexivity.
Qed.

(** X24.  When a handler fails, the budget is checked before anything is
    scheduled: with the incremented count within [maxRetries] the message is
    scheduled for a retry with that count, queue and dead letter queue
    untouched; with the incremented count beyond [maxRetries] the message is
    appended to the dead letter queue.  Either way the message is kept.
    So in a run where the handler of a published message fails at every
    delivery and a companion message is published after each retry timer
    (which starts the dispatcher again), the message is being delivered
    again after each of its first [maxRetries] failures, and its failure
    number [maxRetries + 1] puts it into the dead letter queue, with no
    active message, no pending timer and the dispatcher idle. *)
Theorem always_failing_message_dead_lettered :
  (∀ (now : Z) (m : Message) (b : Broker),
     let attempt := next_retryCount m in
     let b' := handleFailedMessage now m b in
     (Z.of_nat attempt ≤ maxRetries (config b) →
        (∃ due, timers b' = timers b ++ [(due, set_retryCount m attempt)]) ∧
        deadLetterQueue b' = deadLetterQueue b ∧
        messageQueue b' = messageQueue b) ∧
     (maxRetries (config b) < Z.of_nat attempt →
        last (deadLetterQueue b') = Some m ∧
        timers b' = timers b ∧
        messageQueue b' = messageQueue b)) ∧
  (∀ (cfg : MessageBrokerConfig) (newId : string) (t0 : Z)
     (input : MessageInput) (companion : string * MessageInput)
     (rs : list (Z * Z)) (r : Z * Z),
     0 ≤ maxRetries cfg →
     let m := published newId t0 input in
     let failures := first_publish newId t0 input companion ++
                     retry_rounds cfg 1 companion rs in
     (Z.of_nat (length rs) ≤ maxRetries cfg →
        let b := run failures (new_broker cfg) in
        current b = Some (set_retryCount m (length rs)) ∧
        deadLetterQueue b = [] ∧ timers b = []) ∧
     (Z.of_nat (length rs) = maxRetries cfg →
        let b := run (failures ++ last_failure r) (new_broker cfg) in
        deadLetterQueue b = [set_retryCount m (Z.to_nat (maxRetries cfg))] ∧
        activeMessages (getQueueStats b) = 0%nat ∧
        current b = None ∧ timers b = [] ∧ processing b = false)).
Proof.
  split.
  - intros now m b attempt b'. subst attempt b'. split.
    + intros Hle. rewrite handleFailedMessage_retry by done. simpl.
      split; [by eexists | done].
    + intros Hlt. rewrite handleFailedMessage_exhausted by done.
      split; [apply moveToDeadLetterQueue_last | done].
  - intros cfg newId t0 input companion rs r Hmax m failures.
    assert (Z.of_nat (length rs) ≤ maxRetries cfg →
            ∃ c, run failures (new_broker cfg) =
                   delivering cfg (set_retryCount m (length rs)) c) as Hrun.
    { intros Hle. subst failures.
      rewrite run_app, first_publish_delivering. fold m.
      by apply (retry_rounds_delivering cfg m companion rs 0%nat). }
    split.
    + intros Hle b. subst b. destruct (Hrun Hle) as [c ->]. done.
    + intros Hlen b. subst b. rewrite run_app.
      destruct Hrun as [c ->]; [lia|].
      rewrite last_failure_dead_letters by lia. simpl.
      by replace (Z.to_nat (maxRetries cfg)) with (length rs) by lia.
Qed.

Lemma always_failing_message_dead_lettered_witness :
  let b := run (first_publish "msg_1" 0 sample_input sample_companion ++
                retry_rounds default_config 1 sample_companion
                  [(100, 200); (1300, 1400); (3500, 3600)] ++
                last_failure (7700, 7800))
             (new_broker default_config) in
  deadLetterQueue b =
    [set_retryCount (published "msg_1" 0 sample_input) 3] ∧
  activeMessages (getQueueStats b) = 0%nat.
Proof.
  intros b.
  destruct (proj2 always_failing_message_dead_lettered default_config
              "msg_1" 0 sample_input sample_companion
              [(100, 200); (1300, 1400); (3500, 3600)] (7700, 7800))
    as [_ H].
  { vm_compute. discriminate. }
  destruct H as (Hd & Ha & _).
  { reflexivity. }
  unfold b. rewrite app_assoc. split; [exact Hd | exact Ha].
Defined.

(** *** A message that fails on its own *)

(** After the publish and the failure, the broker is idle with the retry
    timer pending; once that timer has run, it is idle with the retry
    message in the queue, and timers and handlers change nothing more. *)
Lemma lone_failure_run cfg newId t0 t1 input es :
  1 ≤ maxRetries cfg →
  Forall (λ e, internal e = true) es →
  let m := set_retryCount (published newId t0 input) 1 in
  let due := t1 + setTimeout_delay (backoff_delay cfg 1) in
  let b := run (lone_failure newId t0 t1 input ++ es) (new_broker cfg) in
  (b = {| messageQueue := []; deadLetterQueue := []; processing := false;
          config := cfg; current := None; timers := [(due, m)] |} ∧
   ¬ retry_timer_ran cfg t1 es) ∨
  b = {| messageQueue := [m]; deadLetterQueue := []; processing := false;
         config := cfg; current := None; timers := [] |}.
Proof.
  intros Hmax Hes m due. cbn zeta.
  induction es as [|e es IH] using rev_ind.
  - left. split.
    + rewrite app_nil_r. unfold lone_failure, run. cbn [foldl step].
      unfold publishMessage, new_broker. cbn.
      unfold handler_settles. cbn.
      rewrite handleFailedMessage_retry
        by (unfold next_retryCount; cbn; lia).
      reflexivity.
    + intros (t & _ & Ht). by apply elem_of_nil in Ht.
  - apply Forall_app in Hes as [Hes He]. apply Forall_cons in He as [He _].
    rewrite app_assoc, run_snoc.
    destruct (IH Hes) as [[-> Hnot] | ->].
    + destruct e as [newId' now message | ok now | now i | messageId];
        cbn in He; try discriminate; cbn [step].
      * left. split; [done|]. intros (t & Ht & Hin).
        apply elem_of_app in Hin as [Hin|Hin]; [by apply Hnot; exists t|].
        by apply list_elem_of_singleton in Hin.
      * unfold timer_fires. destruct i as [|i]; cbn.
        -- fold due. destruct (Z.leb_spec due now) as [Hdue|Hdue].
           ++ by right.
           ++ left. split; [done|]. intros (t & Ht & Hin).
              apply elem_of_app in Hin as [Hin|Hin];
                [by apply Hnot; exists t|].
              apply list_elem_of_singleton in Hin.
              injection Hin as ->. fold due in Ht. lia.
        -- left. split; [done|]. intros (t & Ht & Hin).
           apply elem_of_app in Hin as [Hin|Hin]; [by apply Hnot; exists t|].
           by apply list_elem_of_singleton in Hin.
    + right.
      destruct e as [newId' now message | ok now | now i | messageId];
        cbn in He; try discriminate; [done|].
      cbn [step]. unfold timer_fires. by destruct i.
Qed.

(** C3 on the code.  A message that is published alone and whose handler
    throws is handled once and never again, as long as nothing is called
    from outside: with [maxRetries] at least 1 the failure only registers
    the retry timer, the dispatcher goes idle, and the timer callback puts
    the retry message into the queue without starting the dispatcher.
    Whatever timers and handlers do afterwards, the dead letter queue stays
    empty and nothing is being handled; once the retry timer has run, the
    message sits in the queue with count 1 and [activeMessages] is 1, not
    0. *)
Theorem lone_failing_message_never_dead_lettered :
  ∀ (cfg : MessageBrokerConfig) (newId : string) (t0 t1 : Z)
    (input : MessageInput) (es : list Event),
    1 ≤ maxRetries cfg →
    Forall (λ e, internal e = true) es →
    let m := set_retryCount (published newId t0 input) 1 in
    let due := t1 + setTimeout_delay (backoff_delay cfg 1) in
    let b := run (lone_failure newId t0 t1 input ++ es) (new_broker cfg) in
    deadLetterQueue b = [] ∧ processing b = false ∧ current b = None ∧
    (messageQueue b = [] ∧ timers b = [(due, m)] ∨
     messageQueue b = [m] ∧ timers b = []) ∧
    (retry_timer_ran cfg t1 es →
     messageQueue b = [m] ∧ activeMessages (getQueueStats b) = 1%nat ∧
     deadLetterMessages (getQueueStats b) = 0%nat).
Proof.
  intros cfg newId t0 t1 input es Hmax Hes m due b.
  destruct (lone_failure_run cfg newId t0 t1 input es Hmax Hes)
    as [[Hb Hnot] | Hb]; fold m due b in Hb; rewrite Hb; cbn.
  - repeat split; [by left | done..].
  - repeat split; by right.
Qed.

Lemma lone_failing_message_never_dead_lettered_witness :
  let b := run (lone_failure "msg_1" 0 100 sample_input ++
                [TimerFires 1100 0; HandlerSettles true 6000;
                 TimerFires 9000 0])
             (new_broker default_config) in
  messageQueue b = [set_retryCount (published "msg_1" 0 sample_input) 1] ∧
  activeMessages (getQueueStats b) = 1%nat ∧
  deadLetterMessages (getQueueStats b) = 0%nat.
Proof.
  intros b.
  apply (lone_failing_message_never_dead_lettered default_config "msg_1" 0
           100 sample_input
           [TimerFires 1100 0; HandlerSettles true 6000; TimerFires 9000 0]).
  - vm_compute. discriminate.
  - repeat constructor.
  - exists 1100. split; [vm_compute; discriminate|]. apply elem_of_cons.
    by left.
Defined.

(** *** Requeueing a dead letter *)

Lemma findIndex_None messageId (l : list Message) :
  findIndex messageId l = None ↔ Forall (λ x, id x ≠ messageId) l.
Proof.
  induction l as [|x l IH]; simpl.
  - split; [constructor | done].
  - case_bool_decide as Hx.
    + split; [done|]. intros H. apply Forall_cons in H as [H _]. done.
    + rewrite fmap_None, IH. split.
      * intros H. by constructor.
      * intros H. by apply Forall_cons in H as [_ H].
Qed.

Lemma findIndex_middle messageId (pre post : list Message) m :
  Forall (λ x, id x ≠ messageId) pre → id m = messageId →
  findIndex messageId (pre ++ m :: post) = Some (length pre).
Proof.
  intros Hpre Hm. induction Hpre as [|x pre Hx Hpre IH]; simpl.
  - by rewrite bool_decide_eq_true_2.
  - rewrite bool_decide_eq_false_2 by done. by rewrite IH.
Qed.

Lemma findIndex_Some messageId (l : list Message) i :
  findIndex messageId l = Some i →
  ∃ pre m post,
    l = pre ++ m :: post ∧ length pre = i ∧ id m = messageId ∧
    Forall (λ x, id x ≠ messageId) pre.
Proof.
  revert i. induction l as [|x l IH]; intros i; simpl; [done|].
  case_bool_decide as Hx.
  - intros [= <-]. exists [], x, l. repeat split; [done | constructor].
  - intros Hi. apply fmap_Some in Hi as (j & Hj & ->).
    destruct (IH j Hj) as (pre & m & post & -> & <- & Hm & Hpre).
    exists (x :: pre), m, post. repeat split; [done | by constructor].
Qed.

Lemma retryDeadLetterMessage_absent messageId b :
  Forall (λ x, id x ≠ messageId) (deadLetterQueue b) →
  retryDeadLetterMessage messageId b = (b, false).
Proof.
  intros H. apply findIndex_None in H.
  unfold retryDeadLetterMessage. by rewrite H.
Qed.

Lemma retryDeadLetterMessage_present messageId b pre m post :
  deadLetterQueue b = pre ++ m :: post → id m = messageId →
  Forall (λ x, id x ≠ messageId) pre →
  retryDeadLetterMessage messageId b =
    (let b1 := {| messageQueue := messageQueue b ++ [set_retryCount m 0];
                  deadLetterQueue := pre ++ post;
                  processing := processing b; config := config b;
                  current := current b; timers := timers b |} in
     if processing b then b1 else processQueue b1, true).
Proof.
  intros Hq Hm Hpre. unfold retryDeadLetterMessage.
  rewrite Hq, (findIndex_middle messageId pre post m) by done.
  rewrite list_lookup_middle by done. by rewrite delete_middle.
Qed.

Lemma processQueue_nonempty b m :
  ∃ h, current (processQueue
                  {| messageQueue := messageQueue b ++ [m];
                     deadLetterQueue := deadLetterQueue b;
                     processing := processing b; config := config b;
                     current := current b; timers := timers b |}) = Some h ∧
       h :: messageQueue (processQueue
                  {| messageQueue := messageQueue b ++ [m];
                     deadLetterQueue := deadLetterQueue b;
                     processing := processing b; config := config b;
                     current := current b; timers := timers b |}) =
         messageQueue b ++ [m] ∧
       processing (processQueue
                  {| messageQueue := messageQueue b ++ [m];
                     deadLetterQueue := deadLetterQueue b;
                     processing := processing b; config := config b;
                     current := current b; timers := timers b |}) = true.
Proof.
  unfold processQueue, loop_head. simpl.
  destruct (messageQueue b) as [|h q]; simpl; by eexists.
Qed.

(** C7.  [retryDeadLetterMessage] returns [true] exactly when the dead
    letter queue holds a message with the given id.  It then removes that
    message (the oldest one with the id) from the dead letter queue, resets
    its count to 0 and appends it to the queue; an idle dispatcher is
    started, so the dispatcher runs afterwards.  When it returns [false]
    the broker is unchanged, and with distinct ids in the dead letter queue
    a second call with the same id returns [false] and changes nothing. *)
Theorem retryDeadLetterMessage_spec :
  ∀ (messageId : string) (b : Broker),
    let out := retryDeadLetterMessage messageId b in
    (out.2 = true ↔ ∃ m, m ∈ deadLetterQueue b ∧ id m = messageId) ∧
    (∀ pre m post,
       deadLetterQueue b = pre ++ m :: post → id m = messageId →
       Forall (λ x, id x ≠ messageId) pre →
       out.2 = true ∧
       deadLetterQueue out.1 = pre ++ post ∧
       retryCount (set_retryCount m 0) = Some 0%nat ∧
       (processing b = true →
          messageQueue out.1 = messageQueue b ++ [set_retryCount m 0] ∧
          current out.1 = current b) ∧
       (processing b = false →
          ∃ h, current out.1 = Some h ∧
               h :: messageQueue out.1 =
                 messageQueue b ++ [set_retryCount m 0]) ∧
       processing out.1 = true) ∧
    (out.2 = false → out.1 = b) ∧
    (NoDup (id <$> deadLetterQueue b) →
       retryDeadLetterMessage messageId out.1 = (out.1, false)).
Proof.
  intros messageId b out.
  assert (∀ pre m post,
    deadLetterQueue b = pre ++ m :: post → id m = messageId →
    Forall (λ x, id x ≠ messageId) pre →
    out.2 = true ∧ deadLetterQueue out.1 = pre ++ post ∧
    retryCount (set_retryCount m 0) = Some 0%nat ∧
    (processing b = true →
       messageQueue out.1 = messageQueue b ++ [set_retryCount m 0] ∧
       current out.1 = current b) ∧
    (processing b = false →
       ∃ h, current out.1 = Some h ∧
            h :: messageQueue out.1 =
              messageQueue b ++ [set_retryCount m 0]) ∧
    processing out.1 = true) as Hpresent.
  { intros pre m post Hq Hm Hpre. subst out.
    rewrite (retryDeadLetterMessage_present messageId b pre m post) by done.
    simpl. destruct (processing b) eqn:Hp; simpl.
    - repeat split; done.
    - split; [done|].
      split; [by rewrite (proj1 (processQueue_dlq _))|].
      split; [done|]. split; [done|].
      destruct (processQueue_nonempty
                  {| messageQueue := messageQueue b;
                     deadLetterQueue := pre ++ post;
                     processing := false; config := config b;
                     current := current b; timers := timers b |}
                  (set_retryCount m 0)) as (h & Hc & Hh & Hpr).
      simpl in *. split; [|done]. intros _. by exists h. }
  assert (out.2 = false → out.1 = b) as Habsent.
  { subst out. unfold retryDeadLetterMessage.
    destruct (findIndex messageId (deadLetterQueue b)) as [i|]; [|done].
    by destruct (deadLetterQueue b !! i). }
  split; [|split; [done|split; [done|]]].
  - split.
    + intros Ht. subst out. unfold retryDeadLetterMessage in Ht.
      destruct (findIndex messageId (deadLetterQueue b)) as [i|] eqn:Hi;
        [|done].
      apply findIndex_Some in Hi
        as (pre & m & post & Hq & _ & Hm & _).
      exists m. split; [|done]. rewrite Hq, elem_of_app. right. by left.
    + intros (m & Hin & Hm).
      destruct (findIndex messageId (deadLetterQueue b)) as [i|] eqn:Hi.
      * apply findIndex_Some in Hi
          as (pre & m' & post & Hq & _ & Hm' & Hpre).
        by destruct (Hpresent pre m' post).
      * apply findIndex_None in Hi. rewrite Forall_forall in Hi.
        by destruct (Hi m Hin).
  - intros Hnd. apply retryDeadLetterMessage_absent.
    destruct (findIndex messageId (deadLetterQueue b)) as [i|] eqn:Hi.
    + apply findIndex_Some in Hi
        as (pre & m & post & Hq & _ & Hm & Hpre).
      destruct (Hpresent pre m post Hq Hm Hpre) as (_ & -> & _).
      rewrite Hq, fmap_app, fmap_cons in Hnd.
      apply NoDup_app in Hnd as (_ & Hdis & Hnd).
      apply NoDup_cons in Hnd as [Hnin _].
      apply Forall_app. split; [done|].
      apply Forall_forall. intros x Hx Hid. apply Hnin.
      rewrite Hm, <- Hid. by apply list_elem_of_fmap_2.
    + assert (out.2 = false) as Hf.
      { subst out. unfold retryDeadLetterMessage. by rewrite Hi. }
      rewrite (Habsent Hf). by apply findIndex_None.
Qed.

Lemma retryDeadLetterMessage_spec_witness :
  let out := retryDeadLetterMessage "msg_2" sample_broker in
  out.2 = true ∧
  deadLetterQueue out.1 = [sample_message "msg_1" 3] ∧
  processing out.1 = true ∧
  retryDeadLetterMessage "msg_2" out.1 = (out.1, false).
Proof.
  intros out.
  destruct (retryDeadLetterMessage_spec "msg_2" sample_broker)
    as (_ & Hpresent & _ & Hsecond).
  destruct (Hpresent [sample_message "msg_1" 3] (sample_message "msg_2" 3) [])
    as (Ht & Hd & _ & _ & _ & Hp).
  { reflexivity. }
  { reflexivity. }
  { repeat constructor. vm_compute. discriminate. }
  split; [exact Ht|]. split; [exact Hd|]. split; [exact Hp|].
  apply Hsecond. vm_compute.
  repeat constructor; rewrite ?list_elem_of_In; simpl; intuition discriminate.
Defined.

(** *** The dispatcher *)

Lemma loop_head_idle b :
  processing b = true →
  processing (loop_head b) = false ↔ messageQueue b = [].
Proof.
  intros Hp. unfold loop_head. destruct (messageQueue b); simpl; [done|].
  rewrite Hp. split; discriminate.
Qed.

Lemma publishMessage_running newId now message b :
  processing (publishMessage newId now message b).1 = true.
Proof.
  unfold publishMessage. simpl. destruct (processing b) eqn:Hp; [done|].
  unfold processQueue, loop_head. simpl.
  by destruct (messageQueue b).
Qed.

(** The timer callback changes the queue and nothing about the dispatcher. *)
Lemma timer_fires_dispatcher now i b :
  processing (timer_fires now i b) = processing b ∧
  current (timer_fires now i b) = current b ∧
  ∃ front, messageQueue (timer_fires now i b) = front ++ messageQueue b.
Proof.
  unfold timer_fires. destruct (timers b !! i) as [[due m]|].
  - destruct (due <=? now); simpl.
    + split; [done|]. split; [done|]. by exists [m].
    + split; [done|]. split; [done|]. by exists [].
  - split; [done|]. split; [done|]. by exists [].
Qed.

(** An idle dispatcher stays idle, and the queue keeps its messages, as long
    as only timers run and handlers settle. *)
Lemma idle_stays es b :
  processing b = false → current b = None →
  Forall (λ e, internal e = true) es →
  processing (run es b) = false ∧ current (run es b) = None ∧
  ∃ front, messageQueue (run es b) = front ++ messageQueue b.
Proof.
  intros Hp Hc Hes. induction es as [|e es IH] using rev_ind.
  { split; [done|]. split; [done|]. by exists []. }
  apply Forall_app in Hes as [Hes He]. apply Forall_cons in He as [He _].
  destruct (IH Hes) as (Hp' & Hc' & front & Hq). rewrite run_snoc.
  destruct e as [newId now message | ok now | now i | messageId];
    simpl in He; try discriminate; simpl.
  - unfold handler_settles. rewrite Hc'. simpl.
    split; [done|]. split; [done|]. by exists front.
  - destruct (timer_fires_dispatcher now i (run es b))
      as (Hp2 & Hc2 & front2 & Hq2).
    rewrite Hp2, Hc2, Hq2, Hq. split; [done|]. split; [done|].
    exists (front2 ++ front). by rewrite app_assoc.
Qed.

(** C4.  With the default configuration, publish one message and let its
    handler fail.  The publish starts the dispatcher; after the failure the
    queue is empty, so the dispatcher goes idle with the retry timer pending.
    When the timer runs, the retry message is at the head of the queue, and
    the dispatcher is still idle: nothing is being handled, and later timers
    or handlers do not change that.  A publish in the same state does start
    the dispatcher. *)
Theorem retry_reinsertion_leaves_dispatcher_idle :
  let m := published "msg_1" 0 sample_input in
  let b1 := (publishMessage "msg_1" 0 sample_input
               (new_broker default_config)).1 in
  let b2 := handler_settles false 100 b1 in
  let b3 := timer_fires 1100 0 b2 in
  (processing b1 = true ∧ current b1 = Some m) ∧
  (processing b2 = false ∧ messageQueue b2 = [] ∧
   timers b2 = [(1100, set_retryCount m 1)]) ∧
  (processing b3 = false ∧ current b3 = None ∧
   messageQueue b3 = [set_retryCount m 1] ∧ timers b3 = []) ∧
  run [TimerFires 5000 0; HandlerSettles true 6000; TimerFires 9000 0] b3 =
    b3 ∧
  processing (publishMessage "msg_2" 1200 sample_input b3).1 = true.
Proof. vm_compute. repeat split; reflexivity. Qed.

End MessageBrokerFacts.

(** ** Properties of the constructors *)

Module ConfigurationFacts.
Import Configuration.

(** C9 as found in the code.  No constructor checks its configuration: the
    broker and the ledger are built for every configuration, which is stored
    as given.  A configuration outside the recognised ones then changes what
    the operations do: with a negative [maxRetries] the broker moves a
    message to the dead letter queue at its first failure, and with a
    capacity of 0 or less every message moved to the dead letter queue
    replaces the oldest one there. *)
Theorem constructors_accept_every_configuration :
  (∀ cfg : MessageBroker.MessageBrokerConfig,
     MessageBroker.constructor (Some cfg) =
       Normal (MessageBroker.new_broker cfg)) ∧
  (∀ cfg : Idempotency.IdempotencyConfig,
     Idempotency.constructor (Some cfg) =
       Normal {| Idempotency.config := cfg; Idempotency.store := ∅ |}) ∧
  (∀ (now : Z) (m : MessageBroker.Message) (b : MessageBroker.Broker),
     MessageBroker.maxRetries (MessageBroker.config b) < 0 →
     MessageBroker.handleFailedMessage now m b =
       MessageBroker.moveToDeadLetterQueue m b) ∧
  (∀ (m : MessageBroker.Message) (b : MessageBroker.Broker),
     MessageBroker.deadLetterQueueSize (MessageBroker.config b) ≤ 0 →
     MessageBroker.deadLetterQueue (MessageBroker.moveToDeadLetterQueue m b) =
       tail (MessageBroker.deadLetterQueue b) ++ [m]).
Proof.
  split; [done|]. split; [done|]. split.
  - intros now m b Hneg.
    apply MessageBrokerFacts.handleFailedMessage_exhausted.
    unfold MessageBroker.next_retryCount. lia.
  - intros m b Hcap. unfold MessageBroker.moveToDeadLetterQueue. simpl.
    by destruct (Z.leb_spec
                   (MessageBroker.deadLetterQueueSize (MessageBroker.config b))
                   (Z.of_nat (length (MessageBroker.deadLetterQueue b))));
      [|lia].
Qed.

Lemma constructors_accept_every_configuration_witness :
  let b := MessageBroker.new_broker negative_retries in
  let m := MessageBroker.sample_message "msg_1" 0 in
  MessageBroker.constructor (Some negative_retries) = Normal b ∧
  MessageBroker.deadLetterQueue (MessageBroker.handleFailedMessage 100 m b) =
    [m].
Proof.
  intros b m.
  destruct constructors_accept_every_configuration as (Hb & _ & Hneg & Hcap).
  split; [apply Hb|].
  rewrite (Hneg 100 m b) by (vm_compute; reflexivity).
  rewrite (Hcap m b) by (vm_compute; discriminate).
  reflexivity.
Defined.

(** C9 as stated fails: a broker with [maxRetries = -1] and a capacity of 0
    is constructed, and so is a ledger with [maxRetries = -1]. *)
Lemma invalid_configuration_accepted :
  ¬ MessageBroker.valid_config negative_retries ∧
  MessageBroker.constructor (Some negative_retries) =
    Normal (MessageBroker.new_broker negative_retries) ∧
  ¬ rejects_invalid_configurations.
Proof.
  assert (¬ MessageBroker.valid_config negative_retries) as Hinv.
  { intros [H _]. vm_compute in H. by apply H. }
  split; [done|]. split; [done|].
  intros [Hbroker _]. destruct (Hbroker negative_retries Hinv) as [msg Hmsg].
  discriminate.
Qed.

End ConfigurationFacts.

(** ** More on the ledger: its operations one after the other *)

Module LedgerOperations.
Import Idempotency IdempotencyFacts.

Section OneKey.
Variables (cfg : IdempotencyConfig) (aid cid : string).
Let key := generateKey aid cid.

Lemma storeAction_record t atype md (st : Store) :
(storeAction cfg t aid cid atype md st).1 !! key =
  Some {| actionId := aid; customerId := cid; actionType := atype;
          status := pending; result := None; createdAt := t;
          completedAt := None; expiresAt := t + ttlMs cfg;
          metadata := md |}.
Proof. unfold storeAction. simpl. apply lookup_insert_eq. Qed.

Lemma markCompleted_present now res md (st : Store) r :
st !! key = Some r →
∃ r', markCompleted now aid cid res md st = (<[key := r']> st, true) ∧
      status r' = completed ∧ result r' = Some (Value res) ∧
      completedAt r' = Some now ∧
      expiresAt r' = expiresAt r ∧ createdAt r' = createdAt r ∧
      actionId r' = actionId r ∧ customerId r' = customerId r ∧
      actionType r' = actionType r.
Proof.
  intros H. unfold markCompleted. fold key. rewrite H.
  eexists. split; [reflexivity|]. repeat split.
Qed.

Lemma markFailed_present now err md (st : Store) r :
st !! key = Some r →
∃ r', markFailed now aid cid err md st = (<[key := r']> st, true) ∧
      status r' = failed ∧ result r' = Some (ErrorInfo err now) ∧
      completedAt r' = Some now ∧
      retryCount_of r' = retryCount_of r + 1 ∧
      (metadata r' ≫= lastError) = Some err ∧
      expiresAt r' = expiresAt r ∧ createdAt r' = createdAt r ∧
      actionId r' = actionId r ∧ customerId r' = customerId r ∧
      actionType r' = actionType r.
Proof.
  intros H. unfold markFailed. fold key. rewrite H.
  eexists. split; [reflexivity|]. repeat split.
Qed.

Lemma mark_absent now res err md md' (st : Store) :
st !! key = None →
markCompleted now aid cid res md st = (st, false) ∧
markFailed now aid cid err md' st = (st, false).
Proof.
  intros H. unfold markCompleted, markFailed. fold key. by rewrite H.
Qed.
End OneKey.

(** X1.  A stored action blocks the key for exactly its TTL, when the
    instant of expiry [t + ttlMs] is one a [Date] can hold: a check made up
    to [ttlMs] after [storeAction] is refused as in progress, hands out the
    stored pending record and leaves the store alone; a later check lets
    the caller proceed and deletes the record. *)
Theorem storeAction_blocks_until_expiry :
  ∀ (cfg : IdempotencyConfig) (t t' : Z) (aid cid atype atype' : string)
    (md : option Metadata) (st : Store),
    valid_date (t + ttlMs cfg) →
    let stored := storeAction cfg t aid cid atype md st in
    let out := checkIdempotency cfg t' aid cid atype' stored.1 in
    (t' ≤ t + ttlMs cfg →
       out.1 = stored.1 ∧ canProceed out.2 = false ∧
       existingRecord out.2 = Some stored.2 ∧
       reason out.2 = Some "Action is still in progress"%string) ∧
    (t + ttlMs cfg < t' →
       canProceed out.2 = true ∧
       out.1 !! generateKey aid cid = None).
Proof.
  intros cfg t t' aid cid atype atype' md st _ stored out.
  subst stored out.
  pose proof (storeAction_record cfg aid cid t atype md st) as Hr.
  split.
  - intros Hle. rewrite (check_live _ _ _ _ _ _ _ Hr) by (simpl; lia). done.
  - intros Hlt. rewrite (check_expired _ _ _ _ _ _ _ Hr) by (simpl; lia).
    simpl. split; [done | apply lookup_delete_eq].
Qed.

Lemma storeAction_blocks_until_expiry_witness :
  let stored := storeAction default_config 0 "refund-1" "cust-7" "refund"
                  None ∅ in
  canProceed (checkIdempotency default_config 86400000 "refund-1" "cust-7"
                "refund" stored.1).2 = false ∧
  canProceed (checkIdempotency default_config 86400001 "refund-1" "cust-7"
                "refund" stored.1).2 = true.
Proof.
  intros stored. split.
  - apply (proj1 (storeAction_blocks_until_expiry default_config 0 86400000
                    "refund-1" "cust-7" "refund" "refund" None ∅
                    ltac:(by vm_compute))).
    vm_compute. discriminate.
  - apply (proj2 (storeAction_blocks_until_expiry default_config 0 86400001
                    "refund-1" "cust-7" "refund" "refund" None ∅
                    ltac:(by vm_compute))).
    vm_compute. reflexivity.
Defined.

(** X2.  After [storeAction] and [markCompleted], [getActionResult] gives
    the result, and a check answers "already completed" with the record
    that carries it, as long as the TTL that started at [storeAction] has
    not run out: completing does not extend it.  After that the check lets
    the caller proceed and the cached result is deleted.  This is for an
    instant of expiry [t + ttlMs] that a [Date] can hold. *)
Theorem completed_result_cached_until_expiry :
  ∀ (cfg : IdempotencyConfig) (t t1 t' : Z) (aid cid atype atype' : string)
    (md md' : option Metadata) (res : string) (st : Store),
    valid_date (t + ttlMs cfg) →
    let st2 := (markCompleted t1 aid cid res md'
                  (storeAction cfg t aid cid atype md st).1).1 in
    let out := checkIdempotency cfg t' aid cid atype' st2 in
    getActionResult aid cid st2 = Some (Value res) ∧
    (t' ≤ t + ttlMs cfg →
       out.1 = st2 ∧ canProceed out.2 = false ∧
       reason out.2 = Some "Action already completed"%string ∧
       existingRecord out.2 ≫= result = Some (Value res)) ∧
    (t + ttlMs cfg < t' →
       canProceed out.2 = true ∧
       getActionResult aid cid out.1 = None).
Proof.
  intros cfg t t1 t' aid cid atype atype' md md' res st _ st2 out.
  pose proof (storeAction_record cfg aid cid t atype md st) as Hr.
  destruct (markCompleted_present aid cid t1 res md' _ _ Hr)
    as (r' & Hm & Hst & Hres & _ & Hexp & _).
  assert (st2 !! generateKey aid cid = Some r') as Hr'.
  { subst st2. rewrite Hm. simpl. apply lookup_insert_eq. }
  simpl in Hexp. split; [|split].
  - unfold getActionResult. rewrite Hr', Hst. by rewrite bool_decide_eq_true_2.
  - intros Hle. subst out.
    rewrite (check_live _ _ _ _ _ _ _ Hr') by lia. rewrite Hst. simpl.
    by rewrite Hres.
  - intros Hlt. subst out.
    rewrite (check_expired _ _ _ _ _ _ _ Hr') by lia. simpl.
    split; [done|]. unfold getActionResult. by rewrite lookup_delete_eq.
Qed.

Lemma completed_result_cached_until_expiry_witness :
  let st2 := (markCompleted 5000 "refund-1" "cust-7" "done" None
                (storeAction default_config 0 "refund-1" "cust-7" "refund"
                   None ∅).1).1 in
  canProceed (checkIdempotency default_config 86400000 "refund-1" "cust-7"
                "refund" st2).2 = false ∧
  canProceed (checkIdempotency default_config 86400001 "refund-1" "cust-7"
                "refund" st2).2 = true.
Proof.
  intros st2.
  destruct (completed_result_cached_until_expiry default_config 0 5000
              86400000 "refund-1" "cust-7" "refund" "refund" None None
              "done" ∅ ltac:(by vm_compute)) as (_ & Hlive & _).
  destruct (completed_result_cached_until_expiry default_config 0 5000
              86400001 "refund-1" "cust-7" "refund" "refund" None None
              "done" ∅ ltac:(by vm_compute)) as (_ & _ & Hdead).
  split.
  - apply Hlive. vm_compute. discriminate.
  - apply Hdead. vm_compute. reflexivity.
Defined.

(** X3.  [markCompleted] and [markFailed] return [true] exactly when the key
    has a record.  Without a record they leave the store as it is.  With a
    record they set the status whatever it was before (a completed record
    can be marked failed), and they keep its [expiresAt], [createdAt] and
    identity: marking never extends the TTL. *)
Theorem mark_needs_record :
  ∀ (now : Z) (aid cid res err : string) (md md' : option Metadata)
    (st : Store),
    let key := generateKey aid cid in
    let done := markCompleted now aid cid res md st in
    let fail := markFailed now aid cid err md' st in
    (done.2 = true ↔ is_Some (st !! key)) ∧
    (fail.2 = true ↔ is_Some (st !! key)) ∧
    (st !! key = None → done.1 = st ∧ fail.1 = st) ∧
    (∀ r, st !! key = Some r →
       ∃ rd rf,
         done.1 !! key = Some rd ∧ fail.1 !! key = Some rf ∧
         status rd = completed ∧ status rf = failed ∧
         expiresAt rd = expiresAt r ∧ expiresAt rf = expiresAt r ∧
         createdAt rd = createdAt r ∧ createdAt rf = createdAt r ∧
         customerId rd = customerId r ∧ customerId rf = customerId r ∧
         actionId rd = actionId r ∧ actionId rf = actionId r).
Proof.
  intros now aid cid res err md md' st key done fail. subst key done fail.
  destruct (st !! generateKey aid cid) as [r|] eqn:Hr.
  - destruct (markCompleted_present aid cid now res md st r Hr)
      as (rd & Hd & ? & ? & ? & ? & ? & ? & ? & ?).
    destruct (markFailed_present aid cid now err md' st r Hr)
      as (rf & Hf & ? & ? & ? & ? & ? & ? & ? & ? & ? & ?).
    rewrite Hd, Hf. simpl. split; [done|]. split; [done|].
    split; [done|]. intros r0 [= <-]. exists rd, rf.
    rewrite !lookup_insert_eq. repeat split; done.
  - destruct (mark_absent aid cid now res err md md' st Hr) as [-> ->].
    simpl. split; [split; [done | by intros [? ?]]|].
    split; [split; [done | by intros [? ?]]|].
    split; [done|]. done.
Qed.

Lemma mark_needs_record_witness :
  (markFailed 900 "refund-1" "cust-7" "late" None ∅).2 = false ∧
  status <$>
    (markFailed 900 "refund-1" "cust-7" "late" None
       (markCompleted 500 "refund-1" "cust-7" "done" None
          (storeAction default_config 0 "refund-1" "cust-7" "refund"
             None ∅).1).1).1 !! generateKey "refund-1" "cust-7" =
    Some failed.
Proof.
  split.
  - destruct (mark_needs_record 900 "refund-1" "cust-7" "done" "late" None
                None ∅) as (_ & Hf & _).
    destruct (markFailed 900 "refund-1" "cust-7" "late" None ∅).2 eqn:H;
      [|reflexivity].
    destruct (proj1 Hf eq_refl) as [r Hr]. vm_compute in Hr. discriminate.
  - set (st := (markCompleted 500 "refund-1" "cust-7" "done" None
          (storeAction default_config 0 "refund-1" "cust-7" "refund"
             None ∅).1).1).
    destruct (mark_needs_record 900 "refund-1" "cust-7" "done" "late" None
                None st) as (_ & _ & _ & H).
    destruct (st !! generateKey "refund-1" "cust-7") as [r|] eqn:Hr;
      [|vm_compute in Hr; discriminate].
    destruct (H r eq_refl) as (rd & rf & _ & Hrf & _ & Hs & _).
    rewrite Hrf. simpl. by rewrite Hs.
Defined.

(** *** Failures counted by [markFailed] *)

Lemma mark_failures_snoc aid cid failures f (st : Store) :
  mark_failures aid cid (failures ++ [f]) st =
    (markFailed f.1 aid cid f.2 None (mark_failures aid cid failures st)).1.
Proof. unfold mark_failures. by rewrite foldl_app. Qed.

Lemma mark_failures_record aid cid failures (st : Store) r :
  st !! generateKey aid cid = Some r →
  ∃ r', mark_failures aid cid failures st !! generateKey aid cid = Some r' ∧
        retryCount_of r' = retryCount_of r + Z.of_nat (length failures) ∧
        expiresAt r' = expiresAt r ∧
        (failures ≠ [] →
           status r' = failed ∧
           metadata r' ≫= lastError = snd <$> last failures).
Proof.
  intros Hr. induction failures as [|f failures IH] using rev_ind.
  - exists r. simpl. split; [done|]. split; [lia|]. done.
  - destruct IH as (r1 & Hr1 & Hc1 & He1 & _).
    destruct (markFailed_present aid cid f.1 f.2 None _ r1 Hr1)
      as (r2 & Hm & Hst & _ & _ & Hc2 & Hl & He2 & _).
    exists r2. rewrite mark_failures_snoc, Hm. simpl.
    rewrite lookup_insert_eq, length_app. simpl.
    split; [done|]. split; [lia|]. split; [congruence|].
    intros _. by rewrite last_snoc.
Qed.

(** X4.  [markFailed] itself does count: after [n] calls on a record its
    [retryCount] has grown by [n], whatever metadata the record carried, and
    its TTL is unchanged.  So a record that started without a count and was
    marked failed [n] times (at least once) lets a checker proceed, while
    it has not expired, exactly when [n] is below [maxRetries]. *)
Theorem markFailed_counts_up_to_budget :
  ∀ (cfg : IdempotencyConfig) (aid cid atype : string) (now : Z)
    (failures : list (Z * string)) (st : Store) (r : IdempotencyRecord),
    st !! generateKey aid cid = Some r →
    failures ≠ [] →
    now ≤ expiresAt r →
    let st' := mark_failures aid cid failures st in
    let n := Z.of_nat (length failures) in
    (∃ r', st' !! generateKey aid cid = Some r' ∧ status r' = failed ∧
           retryCount_of r' = retryCount_of r + n ∧
           expiresAt r' = expiresAt r) ∧
    (canProceed (checkIdempotency cfg now aid cid atype st').2 = true ↔
       retryCount_of r + n < maxRetries cfg).
Proof.
  intros cfg aid cid atype now failures st r Hr Hne Hle st' n.
  destruct (mark_failures_record aid cid failures st r Hr)
    as (r' & Hr' & Hc & He & Hs).
  destruct (Hs Hne) as [Hst _]. split.
  - exists r'. done.
  - subst st'. rewrite (check_live _ _ _ _ _ _ _ Hr') by lia.
    rewrite Hst, Hc. fold n.
    destruct (Z.leb_spec (maxRetries cfg) (retryCount_of r + n)); simpl.
    + split; [done | lia].
    + split; [done | lia].
Qed.

Lemma markFailed_counts_up_to_budget_witness :
  let st := (storeAction default_config 0 "refund-1" "cust-7" "refund"
               None ∅).1 in
  canProceed (checkIdempotency default_config 900 "refund-1" "cust-7"
                "refund"
                (mark_failures "refund-1" "cust-7"
                   [(100, "timeout"); (200, "timeout")]%string st)).2 = true.
Proof.
  intros st.
  apply (proj2 (markFailed_counts_up_to_budget default_config "refund-1"
                  "cust-7" "refund" 900
                  [(100, "timeout"); (200, "timeout")]%string st
                  (storeAction default_config 0 "refund-1" "cust-7" "refund"
                     None ∅).2
                  ltac:(reflexivity) ltac:(discriminate)
                  ltac:(vm_compute; discriminate))).
  vm_compute. reflexivity.
Defined.

(** *** Other keys *)

Section Frame.
Variables (aid cid : string) (k : string).
Hypothesis other : k ≠ generateKey aid cid.

Lemma storeAction_other cfg t atype md (st : Store) :
(storeAction cfg t aid cid atype md st).1 !! k = st !! k.
Proof. unfold storeAction. simpl. by rewrite lookup_insert_ne. Qed.

Lemma markCompleted_other now res md (st : Store) :
(markCompleted now aid cid res md st).1 !! k = st !! k.
Proof.
  unfold markCompleted. destruct (st !! generateKey aid cid); [|done].
  simpl. by rewrite lookup_insert_ne.
Qed.

Lemma markFailed_other now err md (st : Store) :
(markFailed now aid cid err md st).1 !! k = st !! k.
Proof.
  unfold markFailed. destruct (st !! generateKey aid cid); [|done].
  simpl. by rewrite lookup_insert_ne.
Qed.

Lemma removeAction_other (st : Store) :
(removeAction aid cid st).1 !! k = st !! k.
Proof. unfold removeAction. simpl. by rewrite lookup_delete_ne. Qed.

Lemma checkIdempotency_other cfg now atype (st : Store) :
(checkIdempotency cfg now aid cid atype st).1 !! k = st !! k.
Proof.
  unfold checkIdempotency.
  destruct (st !! generateKey aid cid) as [r|]; [|done].
  destruct (expired now r); simpl; [by rewrite lookup_delete_ne|].
  destruct (status r); try done.
  by destruct (maxRetries cfg <=? retryCount_of r).
Qed.

Lemma execute_begin_other cfg now atype md (st : Store) :
(execute_begin cfg now aid cid atype md st).1 !! k = st !! k.
Proof.
  unfold execute_begin.
  pose proof (checkIdempotency_other cfg now atype st) as Hc.
  destruct (checkIdempotency cfg now aid cid atype st) as [st1 chk].
  simpl in Hc.
  destruct (negb (canProceed chk) && _); [done|].
  destruct (negb (canProceed chk)); [done|].
  cbn [fst]. by rewrite storeAction_other.
Qed.

Lemma execute_settle_other now o (st : Store) :
(execute_settle now aid cid o st).1 !! k = st !! k.
Proof.
  destruct o; simpl; by rewrite ?markCompleted_other, ?markFailed_other.
Qed.
End Frame.

(** X5.  For customer ids without a colon, what is done for one pair
    [(aid, cid)] does not change the record of another pair [(aid', cid')]:
    storing, marking, removing, checking and a whole
    [executeWithIdempotency] call leave that record as it was. *)
Theorem other_pair_untouched :
  ∀ (cfg : IdempotencyConfig) (aid cid aid' cid' : string) (st : Store),
    has_colon cid = false → has_colon cid' = false →
    (aid, cid) ≠ (aid', cid') →
    let k := generateKey aid' cid' in
    (∀ t atype md, (storeAction cfg t aid cid atype md st).1 !! k = st !! k) ∧
    (∀ t res md, (markCompleted t aid cid res md st).1 !! k = st !! k) ∧
    (∀ t err md, (markFailed t aid cid err md st).1 !! k = st !! k) ∧
    (removeAction aid cid st).1 !! k = st !! k ∧
    (∀ t atype, (checkIdempotency cfg t aid cid atype st).1 !! k = st !! k) ∧
    (∀ (W : Type) (actionFunction : W → W * ActionOutcome) t t' atype md w,
       (executeWithIdempotency cfg t t' aid cid atype actionFunction md
          (st, w)).1.1 !! k = st !! k).
Proof.
  intros cfg aid cid aid' cid' st Hc Hc' Hne k.
  assert (k ≠ generateKey aid cid) as Hk.
  { intros Heq. apply Hne.
    destruct (generateKey_inj aid' cid' aid cid Hc' Hc Heq) as [-> ->].
    done. }
  split; [intros; by apply storeAction_other|].
  split; [intros; by apply markCompleted_other|].
  split; [intros; by apply markFailed_other|].
  split; [by apply removeAction_other|].
  split; [intros; by apply checkIdempotency_other|].
  intros W actionFunction t t' atype md w. unfold executeWithIdempotency.
  simpl.
  pose proof (execute_begin_other aid cid k Hk cfg t atype md st) as Hb.
  destruct (execute_begin cfg t aid cid atype md st) as [st1 [r|]];
    simpl in *; [done|].
  destruct (actionFunction w) as [w' o].
  pose proof (execute_settle_other aid cid k Hk t' o st1) as Hs.
  destruct (execute_settle t' aid cid o st1) as [st2 res]. simpl in *.
  congruence.
Qed.

Lemma other_pair_untouched_witness :
  let st := (storeAction default_config 0 "42" "acme" "refund" None ∅).1 in
  (executeWithIdempotency default_config 10 20 "43" "acme" "refund"
     (counting_action "ok") None (st, 0%nat)).1.1 !! generateKey "42" "acme" =
  st !! generateKey "42" "acme".
Proof.
  intros st.
  destruct (other_pair_untouched default_config "43" "acme" "42" "acme" st)
    as (_ & _ & _ & _ & _ & H).
  - reflexivity.
  - reflexivity.
  - discriminate.
  - apply H.
Defined.

(** *** Removing and sweeping *)

(** X6.  [removeAction] returns [true] exactly when the key had a record.
    Afterwards the key has none, so a check lets the caller proceed
    whatever the removed record was (a pending one included), and a second
    [removeAction] returns [false] and changes nothing. *)
Theorem removeAction_forgets :
  ∀ (cfg : IdempotencyConfig) (now : Z) (aid cid atype : string)
    (st : Store),
    let out := removeAction aid cid st in
    (out.2 = true ↔ is_Some (st !! generateKey aid cid)) ∧
    out.1 !! generateKey aid cid = None ∧
    checkIdempotency cfg now aid cid atype out.1 =
      (out.1,
       {| canProceed := true; existingRecord := None; reason := None |}) ∧
    removeAction aid cid out.1 = (out.1, false).
Proof.
  intros cfg now aid cid atype st out. subst out. unfold removeAction.
  simpl. split; [apply bool_decide_eq_true|].
  split; [apply lookup_delete_eq|].
  split; [apply check_absent, lookup_delete_eq|].
  rewrite lookup_delete_eq, delete_id by apply lookup_delete_eq.
  reflexivity.
Qed.

Lemma cleanup_subseteq now (st : Store) :
  cleanupExpiredRecords now st ⊆ st.
Proof. apply map_filter_subseteq. Qed.

(** X7.  The sweep removes exactly the expired records: a record is in the
    store after [cleanupExpiredRecords] at [now] exactly when it was there
    before and [now] is not past its [expiresAt].  Sweeping twice is
    sweeping once.  A sweep cannot be seen through [checkIdempotency]: a
    check made at the instant of the sweep or later answers the same with
    and without it, and leaves the key in the same state. *)
Theorem cleanupExpiredRecords_exact :
  ∀ (now : Z) (st : Store),
    (∀ k r, cleanupExpiredRecords now st !! k = Some r ↔
            st !! k = Some r ∧ now ≤ expiresAt r) ∧
    cleanupExpiredRecords now (cleanupExpiredRecords now st) =
      cleanupExpiredRecords now st ∧
    (∀ (cfg : IdempotencyConfig) (now' : Z) (aid cid atype : string),
       now ≤ now' →
       (checkIdempotency cfg now' aid cid atype
          (cleanupExpiredRecords now st)).2 =
         (checkIdempotency cfg now' aid cid atype st).2 ∧
       (checkIdempotency cfg now' aid cid atype
          (cleanupExpiredRecords now st)).1 !! generateKey aid cid =
         (checkIdempotency cfg now' aid cid atype st).1
           !! generateKey aid cid).
Proof.
  intros now st.
  assert (∀ k r, cleanupExpiredRecords now st !! k = Some r ↔
                 st !! k = Some r ∧ now ≤ expiresAt r) as Hlookup.
  { intros k r. rewrite cleanup_lookup. unfold expired.
    destruct (st !! k) as [r0|]; [|split; [done | by intros [? _]]].
    destruct (Z.ltb_spec (expiresAt r0) now); split.
    - done.
    - intros [[= ->] ?]. lia.
    - intros [= ->]. split; [done | lia].
    - by intros [? _]. }
  split; [done|]. split.
  - apply map_eq. intros k. rewrite !cleanup_lookup.
    destruct (st !! k) as [r|]; [|done].
    destruct (expired now r) eqn:He; [done | by rewrite He].
  - intros cfg now' aid cid atype Hle.
    destruct (st !! generateKey aid cid) as [r|] eqn:Hr.
    + destruct (Z.lt_ge_cases (expiresAt r) now) as [Hdead|Hlive].
      * assert (cleanupExpiredRecords now st !! generateKey aid cid = None)
          as Hgone.
        { rewrite cleanup_lookup, Hr. unfold expired.
          by destruct (Z.ltb_spec (expiresAt r) now); [|lia]. }
        rewrite (check_absent _ _ _ _ _ _ Hgone).
        rewrite (check_expired _ _ _ _ _ _ r Hr) by lia. simpl.
        by rewrite Hgone, lookup_delete_eq.
      * assert (cleanupExpiredRecords now st !! generateKey aid cid = Some r)
          as Hkept by (apply Hlookup; split; [done | lia]).
        destruct (Z.lt_ge_cases (expiresAt r) now') as [Hdead'|Hlive'].
        -- rewrite (check_expired _ _ _ _ _ _ r Hkept) by done.
           rewrite (check_expired _ _ _ _ _ _ r Hr) by done. simpl.
           by rewrite !lookup_delete_eq.
        -- rewrite (check_live _ _ _ _ _ _ r Hkept) by done.
           rewrite (check_live _ _ _ _ _ _ r Hr) by done. simpl.
           by rewrite Hkept, Hr.
    + assert (cleanupExpiredRecords now st !! generateKey aid cid = None)
        as Hgone by (by rewrite cleanup_lookup, Hr).
      rewrite (check_absent _ _ _ _ _ _ Hgone).
      rewrite (check_absent _ _ _ _ _ _ Hr). simpl. by rewrite Hgone, Hr.
Qed.

Lemma cleanupExpiredRecords_exact_witness :
  let st := (storeAction default_config 0 "refund-1" "cust-7" "refund"
               None ∅).1 in
  (checkIdempotency default_config 90000000 "refund-1" "cust-7" "refund"
     (cleanupExpiredRecords 86400001 st)).2 =
  (checkIdempotency default_config 90000000 "refund-1" "cust-7" "refund"
     st).2.
Proof.
  intros st.
  destruct (cleanupExpiredRecords_exact 86400001 st) as (_ & _ & H).
  apply (H default_config 90000000 "refund-1" "cust-7" "refund").
  vm_compute. discriminate.
Defined.

(** *** Statistics *)

Lemma getStatistics_total now (st : Store) :
  totalRecords (getStatistics now st) = size st.
Proof.
  unfold getStatistics. generalize (size st) as n. intros n.
  apply (map_fold_weak_ind (λ s _, totalRecords s = n)); [done|].
  intros k r m s _ Hs. done.
Qed.

Lemma getStatistics_counts now n (st : Store) :
  let s := map_fold (λ _ r s, count_record now r s)
             {| totalRecords := n; pendingActions := 0;
                completedActions := 0; failedActions := 0;
                expiredRecords := 0 |} st in
  (pendingActions s + completedActions s + failedActions s = size st)%nat ∧
  expiredRecords s =
    size (filter (λ kr, expired now kr.2 = true) st).
Proof.
  apply (map_fold_weak_ind (λ s (m : Store),
    (pendingActions s + completedActions s + failedActions s = size m)%nat ∧
    expiredRecords s = size (filter (λ kr, expired now kr.2 = true) m))).
  - simpl. by rewrite map_filter_empty, !map_size_empty.
  - intros k r m s Hk [Hsum Hexp]. simpl.
    rewrite map_size_insert_None by done. split.
    + destruct (status r); simpl; lia.
    + destruct (expired now r) eqn:He.
      * rewrite map_filter_insert_True by done.
        rewrite map_size_insert_None; [by rewrite Hexp|].
        apply map_lookup_filter_None. by left.
      * rewrite map_filter_insert_not'; [done | simpl; congruence |].
        intros y Hy. congruence.
Qed.

(** X8.  In the statistics every record is counted under exactly one
    status: pending, completed and failed counts add up to [totalRecords],
    which is the size of the store; the expired ones are among them; and
    right after a sweep at the same instant no record counts as expired. *)
Theorem getStatistics_partition :
  ∀ (now : Z) (st : Store),
    let s := getStatistics now st in
    totalRecords s = size st ∧
    (pendingActions s + completedActions s + failedActions s =
       totalRecords s)%nat ∧
    (expiredRecords s ≤ totalRecords s)%nat ∧
    expiredRecords (getStatistics now (cleanupExpiredRecords now st)) = 0%nat ∧
    (totalRecords (getStatistics now (cleanupExpiredRecords now st)) =
       totalRecords s - expiredRecords s)%nat.
Proof.
  intros now st s. subst s.
  pose proof (getStatistics_total now st) as Ht.
  destruct (getStatistics_counts now (size st) st) as [Hsum Hexp].
  fold (getStatistics now st) in Hsum, Hexp.
  assert (size st =
          (size (filter (λ kr : string * IdempotencyRecord,
                           expired now kr.2 = true) st) +
           size (cleanupExpiredRecords now st))%nat) as Hsplit.
  { unfold cleanupExpiredRecords.
    rewrite <- (map_filter_union_complement
                  (λ kr : string * IdempotencyRecord, expired now kr.2 = true)
                  st) at 1.
    rewrite map_size_disj_union by apply map_disjoint_filter_complement.
    f_equal. f_equal. apply map_filter_ext. intros k r _. simpl.
    by destruct (expired now r). }
  split; [done|]. split; [lia|]. split; [lia|].
  rewrite getStatistics_total.
  destruct (getStatistics_counts now (size (cleanupExpiredRecords now st))
              (cleanupExpiredRecords now st)) as [_ Hexp'].
  fold (getStatistics now (cleanupExpiredRecords now st)) in Hexp'.
  split; [|lia].
  rewrite Hexp'. apply map_size_empty_iff, map_empty_filter.
  intros k r Hk Hx. simpl in Hx.
  rewrite cleanup_lookup in Hk. destruct (st !! k) as [r0|]; [|done].
  destruct (expired now r0) eqn:He; [done|]. injection Hk as <-. congruence.
Qed.

(** *** An action that outlives its TTL *)

(** X9.  The pending record protects a running action only for [ttlMs],
    when the instant of expiry [t + ttlMs] is one a [Date] can hold: a
    second caller that arrives after the record has expired, while the
    first action is still running, is let through, and the action is
    invoked a second time while the first invocation has not settled. *)
Theorem expired_pending_invoked_again :
  ∀ (cfg : IdempotencyConfig) (aid cid atype atype' : string) (t t' : Z)
    (md md' : option Metadata) (st : Store),
    st !! generateKey aid cid = None →
    valid_date (t + ttlMs cfg) →
    t + ttlMs cfg < t' →
    let out := session_run cfg aid cid
                 [Call t atype md; Call t' atype' md']
                 {| ledger := st; inflight := 0 |} in
    out.2 = [EvInvoked; EvInvoked] ∧ inflight out.1 = 2%nat ∧
    effective_once out.2 = false.
Proof.
  intros cfg aid cid atype atype' t t' md md' st Habs _ Hlt out. subst out.
  cbn [session_run session_step ledger inflight].
  rewrite begin_absent by done. cbn [ledger inflight].
  rewrite (begin_expired cfg aid cid t' atype' md' _ _
             (storeAction_record cfg aid cid t atype md st))
    by (simpl; lia).
  done.
Qed.

Lemma expired_pending_invoked_again_witness :
  (session_run budget_one "refund-1" "cust-7"
     [Call 0 "refund" None; Call 86400001 "refund" None]
     {| ledger := ∅; inflight := 0 |}).2 = [EvInvoked; EvInvoked].
Proof.
  apply (expired_pending_invoked_again budget_one "refund-1" "cust-7"
           "refund" "refund" 0 86400001 None None ∅).
  - reflexivity.
  - by vm_compute.
  - vm_compute. reflexivity.
Defined.

End LedgerOperations.

(** ** More on the broker: whole runs *)

Module BrokerRuns.
Import MessageBroker MessageBrokerFacts.

Lemma run_cons e es b : run (e :: es) b = run es (step e b).
Proof. reflexivity. Qed.

Lemma log_snoc observe es e b :
  log observe (es ++ [e]) b = log observe es b ++ observe e (run es b).
Proof.
  revert b. induction es as [|e' es IH]; intros b; cbn [log app].
  - by rewrite app_nil_r.
  - rewrite IH, run_cons. by rewrite app_assoc.
Qed.

(** *** The dispatcher flag *)

Lemma loop_head_flag b :
  processing b = true → flag_accurate (loop_head b).
Proof.
  intros Hp. unfold flag_accurate, loop_head.
  destruct (messageQueue b); simpl.
  - split; [done | by intros [? ?]].
  - split; [by eexists | done].
Qed.

Lemma processQueue_flag b : flag_accurate (processQueue b).
Proof. by apply loop_head_flag. Qed.

Lemma step_flag e b : flag_accurate b → flag_accurate (step e b).
Proof.
  intros Hb. destruct e as [newId now message|ok now|now i|messageId]; simpl.
  - destruct (processing b) eqn:Hp; [|apply processQueue_flag].
    unfold flag_accurate in *. simpl. by rewrite Hp in Hb.
  - unfold handler_settles. destruct (current b) as [m|] eqn:Hc; [|done].
    apply loop_head_flag.
    assert (processing b = true) as Hp by (apply Hb; by eexists).
    destruct ok; [done|]. unfold handleFailedMessage.
    by destruct (_ <=? _).
  - unfold timer_fires. destruct (timers b !! i) as [[due m]|]; [|done].
    by destruct (due <=? now).
  - unfold retryDeadLetterMessage.
    destruct (findIndex messageId (deadLetterQueue b)) as [i|]; [|done].
    destruct (deadLetterQueue b !! i) as [m|]; [|done]. simpl.
    destruct (processing b) eqn:Hp; [|apply processQueue_flag].
    unfold flag_accurate in *. simpl. by rewrite Hp in Hb.
Qed.

Lemma run_flag es b : flag_accurate b → flag_accurate (run es b).
Proof.
  intros Hb. induction es as [|e es IH] using rev_ind; [done|].
  rewrite run_snoc. by apply step_flag.
Qed.

Lemma new_broker_flag cfg : flag_accurate (new_broker cfg).
Proof. split; [done | by intros [? ?]]. Qed.

(** X10.  There is one dispatcher at most, and [processing] tells whether
    it is at work: in every state a broker can reach, the flag is set
    exactly when a handler is being awaited, so [getQueueStats] reports
    [isProcessing] exactly then; and calls that find the flag set only
    enqueue. *)
Theorem processing_flag_accurate :
  ∀ (cfg : MessageBrokerConfig) (es : list Event),
    let b := run es (new_broker cfg) in
    (processing b = true ↔ is_Some (current b)) ∧
    (isProcessing (getQueueStats b) = false ↔ current b = None) ∧
    (∀ newId now message,
       is_Some (current b) →
       current (publishMessage newId now message b).1 = current b ∧
       messageQueue (publishMessage newId now message b).1 =
         messageQueue b ++ [published newId now message]).
Proof.
  intros cfg es b.
  pose proof (run_flag es _ (new_broker_flag cfg)) as Hf. fold b in Hf.
  split; [done|]. split.
  - simpl. destruct Hf as [H1 H2]. split.
    + intros Hp. destruct (current b) eqn:Hc; [|done].
      rewrite H2 in Hp by (by eexists). done.
    + intros Hc. destruct (processing b) eqn:Hp; [|done].
      destruct (H1 eq_refl) as [m Hm]. congruence.
  - intros newId now message Hc. unfold publishMessage. simpl.
    by rewrite (proj2 Hf Hc).
Qed.

Lemma processing_flag_accurate_witness :
  let b := run [Publish "msg_1" 0 sample_input] (new_broker small_sink) in
  messageQueue (publishMessage "msg_2" 10 sample_input b).1 =
    [published "msg_2" 10 sample_input].
Proof.
  intros b.
  apply (proj2 (proj2 (processing_flag_accurate small_sink
                         [Publish "msg_1" 0 sample_input]))
           "msg_2" 10 sample_input).
  by eexists.
Defined.

(** *** Runs without failures *)

Lemma fifo_step es e b0 :
  is_failure e = false →
  fifo_state es b0 (run es b0) →
  fifo_state (es ++ [e]) b0 (run (es ++ [e]) b0).
Proof.
  intros He (Hf & Ht & Hd & Hidle & Heq). unfold fifo_state.
  rewrite run_snoc, log_snoc, bind_app. cbn [mbind list_bind app].
  rewrite app_nil_r, <- Heq.
  set (b := run es b0) in *.
  split; [by apply step_flag|].
  destruct e as [newId now message|[] now|now i|messageId];
    try discriminate; cbn [step published_by delivered].
  - (* publish *)
    unfold publishMessage. cbn [fst processing].
    destruct (processing b) eqn:Hp.
    + destruct (proj1 Hf Hp) as [c Hc]. rewrite Hc. cbn.
      repeat split; try done; by rewrite ?app_nil_r, <- ?app_assoc.
    + assert (current b = None) as Hc.
      { destruct (current b) eqn:Hc; [|done].
        rewrite (proj2 Hf) in Hp by (by eexists). done. }
      rewrite Hc, (Hidle Hc). cbn.
      repeat split; try done; by rewrite ?app_nil_r, <- ?app_assoc.
  - (* the handler resolves *)
    unfold handler_settles. destruct (current b) as [c|] eqn:Hc; cbn.
    + unfold loop_head. cbn. destruct (messageQueue b) as [|m q]; cbn.
      * repeat split; try done; by rewrite ?app_nil_r, <- ?app_assoc.
      * repeat split; try done; by rewrite ?app_nil_r, <- ?app_assoc.
    + rewrite Hc. cbn.
      repeat split; try done; by rewrite ?app_nil_r, <- ?app_assoc.
  - (* a timer: there is none *)
    unfold timer_fires. rewrite Ht, lookup_nil.
    destruct (current b); cbn; repeat split; try done;
      by rewrite ?app_nil_r, <- ?app_assoc.
  - (* a requeue: there is no dead letter *)
    unfold retryDeadLetterMessage. rewrite Hd. cbn.
    destruct (current b); cbn; repeat split; try done;
      by rewrite ?app_nil_r, <- ?app_assoc.
Qed.

(** X11.  As long as no handler throws, messages are handled in the order
    they were published, each once: at every moment the messages whose
    handler has resolved, followed by the one being handled and by the
    queue, are exactly the published messages in publishing order.  In
    particular, when the dispatcher is idle every published message has
    been handled and the queue is empty. *)
Theorem deliveries_in_publish_order :
  ∀ (cfg : MessageBrokerConfig) (es : list Event),
    Forall (λ e, is_failure e = false) es →
    let b := run es (new_broker cfg) in
    log delivered es (new_broker cfg) ++ option_list (current b) ++
      messageQueue b = es ≫= published_by ∧
    (processing b = false →
       log delivered es (new_broker cfg) = es ≫= published_by ∧
       activeMessages (getQueueStats b) = 0%nat) ∧
    deadLetterQueue b = [] ∧ timers b = [].
Proof.
  intros cfg es Hes b.
  assert (fifo_state es (new_broker cfg) b) as (Hf & Ht & Hd & Hidle & Heq).
  { subst b. induction es as [|e es IH] using rev_ind.
    - split; [apply new_broker_flag | done].
    - apply Forall_app in Hes as [Hes He].
      apply Forall_cons in He as [He _]. by apply fifo_step; [|apply IH]. }
  split; [done|]. split; [|done].
  intros Hp. assert (current b = None) as Hc.
  { destruct (current b) eqn:Hc; [|done].
    rewrite (proj2 Hf) in Hp by (by eexists). done. }
  rewrite Hc, (Hidle Hc) in Heq. simpl in Heq. rewrite app_nil_r in Heq.
  split; [done|]. simpl. by rewrite (Hidle Hc).
Qed.

Lemma deliveries_in_publish_order_witness :
  log delivered
    [Publish "msg_1" 0 sample_input; Publish "msg_2" 10 sample_input;
     HandlerSettles true 100; HandlerSettles true 200]
    (new_broker default_config) =
  [published "msg_1" 0 sample_input; published "msg_2" 10 sample_input].
Proof.
  apply (proj2 (deliveries_in_publish_order default_config
                  [Publish "msg_1" 0 sample_input;
                   Publish "msg_2" 10 sample_input;
                   HandlerSettles true 100; HandlerSettles true 200]
                  ltac:(repeat constructor))).
  reflexivity.
Defined.

(** *** No message is lost *)

Lemma loop_head_pool b : current b = None → pool (loop_head b) = pool b.
Proof.
  intros Hc. unfold loop_head, pool. rewrite Hc.
  by destruct (messageQueue b).
Qed.

Lemma restart_pool b :
  flag_accurate b →
  pool (if processing b then b else processQueue b) = pool b.
Proof.
  intros Hf. destruct (processing b) eqn:Hp; [done|].
  assert (current b = None) as Hc.
  { destruct (current b) eqn:Hc; [|done].
    rewrite (proj2 Hf) in Hp by (by eexists). done. }
  unfold processQueue. rewrite loop_head_pool by done.
  unfold pool. simpl. by rewrite Hc.
Qed.

Lemma timers_delete_Permutation (ts : list (Z * Message)) i due m :
  ts !! i = Some (due, m) → snd <$> ts ≡ₚ m :: (snd <$> delete i ts).
Proof.
  intros Hi. rewrite list_fmap_delete. apply delete_Permutation.
  by rewrite list_lookup_fmap, Hi.
Qed.

(** Permutations of lists of ids built with [++] and [::]. *)
Ltac perm_ids :=
  cbn; rewrite ?fmap_app, ?fmap_cons; cbn; rewrite ?fmap_app, ?fmap_cons;
  solve_Permutation.

Lemma step_conserves e b :
  flag_accurate b →
  id <$> (pool b ++ published_by e) ≡ₚ
  id <$> (delivered e b ++ evicted e b ++ pool (step e b)).
Proof.
  intros Hf.
  destruct e as [newId now message|ok now|now i|messageId];
    cbn [step published_by delivered evicted].
  - (* publish *)
    unfold publishMessage. cbn [fst].
    set (b1 := {| messageQueue := messageQueue b ++ _ |}).
    assert (flag_accurate b1) as Hf1 by done.
    change (processing b) with (processing b1).
    rewrite (restart_pool b1 Hf1).
    unfold pool. subst b1. perm_ids.
  - (* the handler settles *)
    unfold handler_settles, delivered, evicted.
    destruct (current b) as [c|] eqn:Hc.
    2:{ destruct ok; by rewrite app_nil_r. }
    set (b' := {| messageQueue := messageQueue b; current := None |}).
    assert (pool b = c :: pool b') as Hpool
      by (unfold pool; by rewrite Hc).
    rewrite app_nil_r, Hpool. destruct ok.
    + rewrite loop_head_pool by done. done.
    + unfold handleFailedMessage. cbn [config b'].
      destruct (Z.of_nat (next_retryCount c) <=? maxRetries (config b)).
      * rewrite loop_head_pool by done. unfold pool. perm_ids.
      * rewrite loop_head_pool by done.
        unfold moveToDeadLetterQueue, pool. cbn.
        destruct (deadLetterQueueSize (config b) <=?
                    Z.of_nat (length (deadLetterQueue b))).
        -- destruct (deadLetterQueue b) as [|d ds]; perm_ids.
        -- perm_ids.
  - (* a timer runs *)
    rewrite app_nil_r. cbn [app]. unfold timer_fires.
    destruct (timers b !! i) as [[due m]|] eqn:Hi; [|done].
    destruct (due <=? now); [|done].
    unfold pool. cbn. rewrite !fmap_app.
    rewrite (timers_delete_Permutation (timers b) i due m Hi).
    perm_ids.
  - (* a dead letter is requeued *)
    rewrite app_nil_r. cbn [app]. unfold retryDeadLetterMessage.
    destruct (findIndex messageId (deadLetterQueue b)) as [i|]; [|done].
    destruct (deadLetterQueue b !! i) as [m|] eqn:Hi; [|done]. cbn [fst].
    set (b1 := {| messageQueue := messageQueue b ++ _ |}).
    assert (flag_accurate b1) as Hf1 by done.
    change (processing b) with (processing b1).
    rewrite (restart_pool b1 Hf1). unfold pool. subst b1. cbn.
    rewrite !fmap_app.
    rewrite (delete_Permutation (deadLetterQueue b) i m Hi) at 1.
    perm_ids.
Qed.

Lemma run_conserves es b0 :
  flag_accurate b0 →
  id <$> (pool b0 ++ (es ≫= published_by)) ≡ₚ
  id <$> (log delivered es b0 ++ log evicted es b0 ++ pool (run es b0)).
Proof.
  intros Hf. induction es as [|e es IH] using rev_ind.
  - cbn. by rewrite app_nil_r.
  - rewrite !log_snoc, run_snoc, bind_app. cbn [mbind list_bind app].
    rewrite app_nil_r.
    pose proof (step_conserves e (run es b0) (run_flag es b0 Hf)) as Hs.
    rewrite !fmap_app in *.
    set (I0 := id <$> pool b0) in *.
    set (P := id <$> (es ≫= published_by)) in *.
    set (p := id <$> published_by e) in *.
    set (D := id <$> log delivered es b0) in *.
    set (E := id <$> log evicted es b0) in *.
    set (PB := id <$> pool (run es b0)) in *.
    set (d := id <$> delivered e (run es b0)) in *.
    set (ev := id <$> evicted e (run es b0)) in *.
    set (PB' := id <$> pool (step e (run es b0))) in *.
    assert (I0 ++ P ++ p ≡ₚ (I0 ++ P) ++ p) as -> by solve_Permutation.
    rewrite IH.
    assert ((D ++ E ++ PB) ++ p ≡ₚ D ++ E ++ (PB ++ p)) as ->
      by solve_Permutation.
    rewrite Hs. solve_Permutation.
Qed.

(** X12.  A broker never loses a message except by pushing the oldest dead
    letter out of a full dead letter queue.  Whatever happens, every
    published message (by its id) is in exactly one place: handled with
    success, pushed out of the dead letter queue, or still held by the
    broker as the message being handled, in the queue, waiting for its
    retry timer or in the dead letter queue. *)
Theorem published_messages_accounted_for :
  ∀ (cfg : MessageBrokerConfig) (es : list Event),
    let b0 := new_broker cfg in
    id <$> (es ≫= published_by) ≡ₚ
    id <$> (log delivered es b0 ++ log evicted es b0 ++ pool (run es b0)).
Proof.
  intros cfg es b0.
  apply (run_conserves es b0 (new_broker_flag cfg)).
Qed.

(** *** Retry counts *)

Lemma counts_ok_intro b :
  Forall (within_budget (config b)) (option_list (current b)) →
  Forall (within_budget (config b)) (messageQueue b) →
  Forall (within_budget (config b)) (snd <$> timers b) →
  Forall (budget_used (config b)) (deadLetterQueue b) →
  counts_ok b.
Proof. intros. split; [by rewrite !Forall_app | done]. Qed.

Lemma counts_ok_elim b :
  counts_ok b →
  Forall (within_budget (config b)) (option_list (current b)) ∧
  Forall (within_budget (config b)) (messageQueue b) ∧
  Forall (within_budget (config b)) (snd <$> timers b) ∧
  Forall (budget_used (config b)) (deadLetterQueue b).
Proof.
  intros [H ?]. rewrite !Forall_app in H. destruct H as (? & ? & ?). done.
Qed.

Lemma loop_head_counts b :
  current b = None → counts_ok b → counts_ok (loop_head b).
Proof.
  intros Hc Hb. apply counts_ok_elim in Hb as (_ & Hq & Ht & Hd).
  unfold loop_head. destruct (messageQueue b) as [|m q].
  - by apply counts_ok_intro.
  - apply Forall_cons in Hq as [Hm Hq].
    apply counts_ok_intro; try done. simpl. by constructor.
Qed.

Lemma restart_counts b :
  flag_accurate b → counts_ok b →
  counts_ok (if processing b then b else processQueue b).
Proof.
  intros Hf Hb. destruct (processing b) eqn:Hp; [done|].
  assert (current b = None) as Hc.
  { destruct (current b) eqn:Hc; [|done].
    rewrite (proj2 Hf) in Hp by (by eexists). done. }
  apply loop_head_counts; [done|].
  apply counts_ok_elim in Hb as (Hcur & Hq & Ht & Hd).
  by apply counts_ok_intro.
Qed.

Lemma step_counts e b :
  0 ≤ maxRetries (config b) →
  flag_accurate b → counts_ok b → counts_ok (step e b).
Proof.
  intros Hmax Hf Hb.
  pose proof (counts_ok_elim b Hb) as (Hcur & Hq & Ht & Hd).
  destruct e as [newId now message|ok now|now i|messageId]; cbn [step].
  - unfold publishMessage. cbn [fst].
    set (b1 := {| messageQueue := messageQueue b ++ _ |}).
    change (processing b) with (processing b1).
    apply restart_counts; [done|].
    apply counts_ok_intro; try done. subst b1. cbn.
    apply Forall_app. split; [done|]. constructor; [|done].
    exists 0%nat. split; [done | lia].
  - unfold handler_settles. destruct (current b) as [c|] eqn:Hc; [|done].
    apply Forall_cons in Hcur as [(k & Hk & Hle) _].
    destruct ok.
    + apply loop_head_counts; [done|]. by apply counts_ok_intro.
    + unfold handleFailedMessage, next_retryCount. rewrite Hk. cbn.
      destruct (Z.leb_spec (Z.of_nat (k + 1)) (maxRetries (config b))).
      * apply loop_head_counts; [done|]. apply counts_ok_intro; try done.
        cbn. rewrite fmap_app. apply Forall_app. split; [done|].
        constructor; [|done]. by exists (k + 1)%nat.
      * apply loop_head_counts; [done|]. apply counts_ok_intro; try done.
        cbn. apply Forall_app. split.
        -- destruct (_ <=? _); [by apply Forall_tail | done].
        -- constructor; [|done]. unfold budget_used. rewrite Hk.
           f_equal. lia.
  - unfold timer_fires. destruct (timers b !! i) as [[due m]|] eqn:Hi;
      [|done].
    destruct (due <=? now); [|done].
    apply counts_ok_intro; try done; cbn.
    + constructor; [|done].
      rewrite Forall_forall in Ht. apply Ht.
      apply list_elem_of_fmap. exists (due, m).
      split; [done | by eapply list_elem_of_lookup_2].
    + rewrite list_fmap_delete. by apply Forall_delete.
  - unfold retryDeadLetterMessage.
    destruct (findIndex messageId (deadLetterQueue b)) as [i|]; [|done].
    destruct (deadLetterQueue b !! i) as [m|] eqn:Hi; [|done]. cbn [fst].
    set (b1 := {| messageQueue := messageQueue b ++ _ |}).
    change (processing b) with (processing b1).
    apply restart_counts; [done|].
    apply counts_ok_intro; try done; subst b1; cbn.
    + apply Forall_app. split; [done|]. constructor; [|done].
      exists 0%nat. split; [done | lia].
    + by apply Forall_delete.
Qed.

(** X13.  With a budget of at least 0, the retry counts of a broker are
    always in range: every message being handled, queued or waiting for its
    retry timer has a count between 0 and [maxRetries], and every message
    in the dead letter queue has a count of exactly [maxRetries]: it has
    failed [maxRetries + 1] times since it was published or requeued. *)
Theorem retry_counts_in_range :
  ∀ (cfg : MessageBrokerConfig) (es : list Event),
    0 ≤ maxRetries cfg →
    let b := run es (new_broker cfg) in
    (∀ m, m ∈ option_list (current b) ++ messageQueue b ++
              (snd <$> timers b) →
       ∃ k : nat, retryCount m = Some k ∧ Z.of_nat k ≤ maxRetries cfg) ∧
    (∀ m, m ∈ deadLetterQueue b →
       retryCount m = Some (Z.to_nat (maxRetries cfg))).
Proof.
  intros cfg es Hmax b.
  assert (counts_ok b) as [Hlive Hdead].
  { subst b. induction es as [|e es IH] using rev_ind.
    - apply counts_ok_intro; constructor.
    - rewrite run_snoc. apply step_counts; [|by apply run_flag,
        new_broker_flag|done]. by rewrite run_config. }
  subst b. rewrite run_config in Hlive, Hdead. cbn in Hlive, Hdead.
  rewrite Forall_forall in Hlive. rewrite Forall_forall in Hdead.
  split; [exact Hlive | exact Hdead].
Qed.

Lemma retry_counts_in_range_witness :
  Forall (budget_used small_sink)
    (deadLetterQueue (run three_failures (new_broker small_sink))).
Proof.
  apply Forall_forall.
  apply (proj2 (retry_counts_in_range small_sink three_failures
                  ltac:(vm_compute; discriminate))).
Defined.

(** *** The dead letter queue as a window *)

Lemma move_all_snoc ms m b :
  move_all (ms ++ [m]) b = moveToDeadLetterQueue m (move_all ms b).
Proof. unfold move_all. by rewrite foldl_app. Qed.

Lemma move_all_config ms b : config (move_all ms b) = config b.
Proof.
  induction ms as [|m ms IH] using rev_ind; [done|].
  by rewrite move_all_snoc.
Qed.

Lemma tail_drop {A} (l : list A) : tail l = drop 1 l.
Proof. by destruct l. Qed.

(** X14.  The dead letter queue is a window on the dead letters: with a
    positive capacity, after any number of messages has been moved to it,
    it holds the latest [deadLetterQueueSize] of the entries it had and
    the messages moved, oldest first. *)
Theorem dead_letter_queue_keeps_latest :
  ∀ (ms : list Message) (b : Broker),
    0 < deadLetterQueueSize (config b) →
    Z.of_nat (length (deadLetterQueue b)) ≤ deadLetterQueueSize (config b) →
    let all := deadLetterQueue b ++ ms in
    deadLetterQueue (move_all ms b) =
      drop (length all - Z.to_nat (deadLetterQueueSize (config b))) all.
Proof.
  intros ms b Hpos Hb all. subst all.
  induction ms as [|m ms IH] using rev_ind.
  - rewrite app_nil_r. cbn.
    by replace (length (deadLetterQueue b) -
                Z.to_nat (deadLetterQueueSize (config b)))%nat
      with 0%nat by lia.
  - rewrite move_all_snoc. unfold moveToDeadLetterQueue. cbn.
    rewrite move_all_config, IH, app_assoc.
    set (l := deadLetterQueue b ++ ms) in *.
    set (c := Z.to_nat (deadLetterQueueSize (config b))).
    rewrite length_drop, length_app. cbn.
    destruct (Z.leb_spec (deadLetterQueueSize (config b))
                (Z.of_nat (length l - (length l - c)))).
    + rewrite tail_drop, drop_drop.
      rewrite drop_app_le by lia. f_equal. f_equal. lia.
    + replace (length l - c)%nat with 0%nat by lia.
      replace (length l + 1 - c)%nat with 0%nat by lia. done.
Qed.

Lemma dead_letter_queue_keeps_latest_witness :
  id <$> deadLetterQueue
           (move_all [sample_message "msg_3" 0; sample_message "msg_4" 0]
              {| messageQueue := []; processing := false; current := None;
                 deadLetterQueue :=
                   [sample_message "msg_1" 0; sample_message "msg_2" 0];
                 config := small_sink; timers := [] |}) =
  ["msg_3"; "msg_4"]%string.
Proof.
  rewrite (dead_letter_queue_keeps_latest
             [sample_message "msg_3" 0; sample_message "msg_4" 0]
             {| messageQueue := []; processing := false; current := None;
                deadLetterQueue :=
                  [sample_message "msg_1" 0; sample_message "msg_2" 0];
                config := small_sink; timers := [] |}
             ltac:(reflexivity) ltac:(vm_compute; discriminate)).
  reflexivity.
Defined.

(** *** Retries go first *)

(** X15.  A retry overtakes the waiting messages: when its timer runs while
    the dispatcher is busy, the retry message is the next one handled,
    whether the current handler resolves or throws, and the messages that
    were waiting are still waiting, in their order. *)
Theorem due_retry_handled_next :
  ∀ (b : Broker) (c m : Message) (i : nat) (due now now' : Z) (ok : bool),
    current b = Some c →
    timers b !! i = Some (due, m) →
    due ≤ now →
    let b' := handler_settles ok now' (timer_fires now i b) in
    current b' = Some m ∧ messageQueue b' = messageQueue b.
Proof.
  intros b c m i due now now' ok Hc Hi Hdue b'. subst b'.
  unfold timer_fires. rewrite Hi.
  destruct (Z.leb_spec due now); [|lia].
  unfold handler_settles. cbn. rewrite Hc. destruct ok; [done|].
  unfold handleFailedMessage. cbn. by destruct (_ <=? _).
Qed.

Lemma due_retry_handled_next_witness :
  let b := {| messageQueue := [sample_message "msg_9" 0];
              deadLetterQueue := []; processing := true;
              config := default_config;
              current := Some (sample_message "msg_8" 0);
              timers := [(1100, sample_message "msg_5" 1)] |} in
  current (handler_settles true 1300 (timer_fires 1200 0 b)) =
    Some (sample_message "msg_5" 1).
Proof.
  intros b.
  apply (due_retry_handled_next b (sample_message "msg_8" 0)
           (sample_message "msg_5" 1) 0 1100 1200 1300 true).
  - reflexivity.
  - reflexivity.
  - vm_compute. discriminate.
Defined.

End BrokerRuns.

(** ** Properties of the encryption helpers *)

Module EncryptionFacts.
Import Encryption.

Lemma split_colon_single (a : string) :
  Idempotency.has_colon a = false → split_colon a = [a].
Proof.
  induction a as [|c a IH]; simpl; [done|]. intros H.
  apply orb_false_iff in H as [Hc Ha].
  rewrite Hc. by rewrite (IH Ha).
Qed.

Lemma split_colon_app (a rest : string) :
  Idempotency.has_colon a = false →
  split_colon (a +:+ ":" +:+ rest) = a :: split_colon rest.
Proof.
  induction a as [|c a IH]; simpl; [done|]. intros H.
  apply orb_false_iff in H as [Hc Ha].
  rewrite Hc. by rewrite (IH Ha).
Qed.

Lemma string_or_empty (x : option string) :
  truthy x = None → string_or x "" = ""%string.
Proof. by destruct x as [[|]|]. Qed.

Lemma string_or_truthy (x : option string) (s d : string) :
  truthy x = Some s → string_or x d = s.
Proof. destruct x as [[|]|]; simpl; congruence. Qed.

Section Crypto.
Variable cipher : string → string → Completion (string * string).
Variable decipher : string → string → option string → Completion string.
Variable pbkdf2 : string → string → nat → string.
Variable sha256 : string → string.

Lemma decryptData_sound data key ivHex ivHex' enc t :
cipher_sound cipher decipher →
String.length key = 64%nat →
cipher key data = Normal (enc, t) →
encryptData cipher ivHex data key =
  Normal {| encrypted := enc; iv := ivHex; tag := Some t |} ∧
decryptData decipher enc key ivHex' (Some t) =
  {| decrypted := data; success := true; error := None |}.
Proof.
  intros Hs Hlen Hc. destruct (Hs _ _ _ _ Hc) as (Hd & Ht & _).
  unfold encryptData, decryptData. rewrite Hlen, Hc. simpl.
  split; [done|]. destruct t; [done|]. simpl. by rewrite Hd.
Qed.
End Crypto.

(** X16.  Without a configured key the text and credential helpers
    encrypt but cannot decrypt: when [ENCRYPTION_KEY] is unset or empty
    (and no customer id is given), [encryptText] and [encryptCredentials]
    encrypt under the random key of [generateKey()], which is not kept,
    while [decryptText] throws "Invalid key length" and
    [decryptCredentials] throws "Failed to decrypt credentials" for every
    input, before any deciphering. *)
Theorem no_key_no_decryption :
  ∀ (cipher : string → string → Completion (string * string))
    (decipher : string → string → option string → Completion string)
    (pbkdf2 : string → string → nat → string)
    (env customerId : option string),
    truthy env = None → truthy customerId = None →
    (∀ r, decryptText decipher pbkdf2 env r customerId =
          Throw "Invalid key length") ∧
    (∀ s, decryptCredentials decipher env s =
          Throw "Failed to decrypt credentials") ∧
    (∀ rndKey ivHex text enc t,
       String.length rndKey = 64%nat →
       cipher rndKey text = Normal (enc, t) →
       encryptText cipher pbkdf2 env rndKey ivHex text customerId =
         Normal {| encrypted := enc; iv := ivHex; tag := Some t |} ∧
       encryptCredentials cipher env rndKey ivHex text =
         Normal (enc +:+ ":" +:+ ivHex +:+ ":" +:+ t)%string).
Proof.
  intros cipher decipher pbkdf2 env customerId Henv Hcid.
  split; [|split].
  - intros r. unfold decryptText. rewrite Hcid, string_or_empty by done.
    done.
  - intros s. unfold decryptCredentials. rewrite string_or_empty by done.
    done.
  - intros rndKey ivHex text enc t Hlen Hc.
    assert (string_or env rndKey = rndKey) as Hk
      by (by destruct env as [[|]|]).
    unfold encryptText, encryptCredentials. rewrite Hcid, Hk.
    unfold encryptData. rewrite Hlen, Hc. done.
Qed.

Lemma no_key_no_decryption_witness :
  decryptCredentials toy_decipher None "c2VjcmV0:00ff:7a" =
    Throw "Failed to decrypt credentials".
Proof.
  apply (proj1 (proj2 (no_key_no_decryption toy_cipher toy_decipher
                         toy_pbkdf2 None None eq_refl eq_refl))).
Defined.

(** X17.  A hash made by [hashData] verifies: for a salt without a colon
    (the caller's, or the random hex one), [verifyHash] accepts the output
    of [hashData] for the same data.  A string without any colon is never
    accepted. *)
Theorem hashData_verifies :
  ∀ (pbkdf2 : string → string → nat → string) (rnd data : string)
    (salt : option string),
    hex_digest pbkdf2 →
    Idempotency.has_colon (string_or salt rnd) = false →
    verifyHash pbkdf2 data (hashData pbkdf2 rnd data salt) = true ∧
    (∀ junk, Idempotency.has_colon junk = false →
             verifyHash pbkdf2 data junk = false).
Proof.
  intros pbkdf2 rnd data salt Hhex Hsalt. split.
  - unfold verifyHash, hashData. rewrite split_colon_app by done.
    rewrite split_colon_single by apply Hhex.
    by apply bool_decide_eq_true.
  - intros junk Hj. unfold verifyHash. by rewrite split_colon_single.
Qed.

Lemma toy_pbkdf2_hex : hex_digest toy_pbkdf2.
Proof.
  intros p s n. unfold toy_pbkdf2. generalize (2 * n)%nat as k.
  induction k as [|k [IH1 IH2]]; [done|]. simpl. by rewrite IH2.
Qed.

Lemma hashData_verifies_witness :
  verifyHash toy_pbkdf2 "secret" (hashData toy_pbkdf2 "a1b2" "secret" None) =
    true.
Proof.
  apply (hashData_verifies toy_pbkdf2 "a1b2" "secret" None toy_pbkdf2_hex
           eq_refl).
Defined.

(** X18.  Credentials survive the trip through [encryptCredentials] and
    [decryptCredentials] when a key of 64 characters is configured: the
    three parts joined with colons are split apart again, and deciphering
    with the configured key gives the credentials back. *)
Theorem credentials_round_trip :
  ∀ (cipher : string → string → Completion (string * string))
    (decipher : string → string → option string → Completion string)
    (key rndKey ivHex credentials out : string),
    cipher_sound cipher decipher →
    String.length key = 64%nat →
    Idempotency.has_colon ivHex = false →
    encryptCredentials cipher (Some key) rndKey ivHex credentials =
      Normal out →
    decryptCredentials decipher (Some key) out = Normal credentials.
Proof.
  intros cipher decipher key rndKey ivHex credentials out Hs Hlen Hiv Henc.
  assert (string_or (Some key) rndKey = key ∧ string_or (Some key) "" = key)
    as [Hk Hk'] by (by destruct key).
  unfold encryptCredentials in Henc. rewrite Hk in Henc.
  unfold encryptData in Henc. rewrite Hlen in Henc. simpl in Henc.
  destruct (cipher key credentials) as [[enc t]|msg] eqn:Hc; [|done].
  injection Henc as <-. simpl.
  destruct (Hs _ _ _ _ Hc) as (Hd & Ht & Henc & Htag).
  unfold decryptCredentials. rewrite Hk'.
  rewrite split_colon_app by done. rewrite split_colon_app by done.
  rewrite split_colon_single by done. simpl.
  destruct (decryptData_sound cipher decipher credentials key ivHex
              (Some ivHex) enc t Hs Hlen Hc) as [_ ->].
  done.
Qed.

Lemma toy_cipher_sound : cipher_sound toy_cipher toy_decipher.
Proof.
  intros k d enc t. unfold toy_cipher.
  destruct (Idempotency.has_colon d) eqn:Hd; [done|].
  by intros [= <- <-].
Qed.

Lemma credentials_round_trip_witness :
  decryptCredentials toy_decipher (Some (zeros 64))
    "postgres//db-1:00ff:7a" = Normal "postgres//db-1"%string.
Proof.
  apply (credentials_round_trip toy_cipher toy_decipher (zeros 64) "" "00ff"
           "postgres//db-1" "postgres//db-1:00ff:7a" toy_cipher_sound
           eq_refl eq_refl eq_refl).
Defined.

(** X19.  What is encrypted for a customer decrypts for that customer:
    the key derived from the customer id always has the right length, so
    [decryptText] gives back the text of [encryptText], and
    [decryptAttachment] gives back the file of [encryptAttachment] with a
    matching checksum ([isValid]), whatever [ENCRYPTION_KEY] is, as long
    as it is the same on both sides. *)
Theorem customer_round_trip :
  ∀ (cipher : string → string → Completion (string * string))
    (decipher : string → string → option string → Completion string)
    (pbkdf2 : string → string → nat → string) (sha256 : string → string)
    (env : option string) (cid rndKey ivHex data name : string) (now : Z),
    cipher_sound cipher decipher →
    hex_digest pbkdf2 →
    cid ≠ ""%string →
    (∀ r, encryptText cipher pbkdf2 env rndKey ivHex data (Some cid) =
            Normal r →
          decryptText decipher pbkdf2 env r (Some cid) = Normal data) ∧
    (∀ r md, encryptAttachment cipher pbkdf2 sha256 env ivHex now data name
               cid = Normal (r, md) →
             decryptAttachment decipher pbkdf2 sha256 env r md =
               Normal {| fileBuffer := data; filename := name;
                         isValid := true |}).
Proof.
  intros cipher decipher pbkdf2 sha256 env cid rndKey ivHex data name now
    Hs Hhex Hcid.
  assert (truthy (Some cid) = Some cid) as Ht by (by destruct cid).
  set (key := generateCustomerKey pbkdf2 env cid).
  assert (String.length key = 64%nat) as Hlen by apply Hhex.
  split.
  - intros r Henc. unfold encryptText in Henc. rewrite Ht in Henc.
    fold key in Henc. unfold encryptData in Henc. rewrite Hlen in Henc.
    simpl in Henc.
    destruct (cipher key data) as [[enc t]|msg] eqn:Hc; [|done].
    injection Henc as <-. unfold decryptText. rewrite Ht. fold key. simpl.
    destruct (decryptData_sound cipher decipher data key ivHex
                (Some ivHex) enc t Hs Hlen Hc) as [_ ->].
    done.
  - intros r md Henc. unfold encryptAttachment in Henc. fold key in Henc.
    unfold encryptData in Henc. rewrite Hlen in Henc. simpl in Henc.
    destruct (cipher key data) as [[enc t]|msg] eqn:Hc; [|done].
    injection Henc as <- <-. unfold decryptAttachment. simpl. fold key.
    destruct (decryptData_sound cipher decipher data key ivHex
                (Some ivHex) enc t Hs Hlen Hc) as [_ ->].
    simpl. by rewrite bool_decide_eq_true_2.
Qed.

Lemma customer_round_trip_witness :
  decryptText toy_decipher toy_pbkdf2 None
    {| encrypted := "hello"; iv := "00ff"; tag := Some "7a"%string |}
    (Some "cust-7"%string) = Normal "hello"%string.
Proof.
  apply (proj1 (customer_round_trip toy_cipher toy_decipher toy_pbkdf2
                  (λ s, s) None "cust-7" "" "00ff" "hello" "a.txt" 0
                  toy_cipher_sound toy_pbkdf2_hex ltac:(discriminate))).
  reflexivity.
Defined.

End EncryptionFacts.

(** ** Properties of the language model client *)

Module LLMFacts.
Import LLM.

Section Manager.
Variable Num : Type.
Variable num_add : Num → Num → Num.
Variable num_falsy : Num → bool.
Variable calculateCost : string → Z → Z → Num.
Variable W : Type.
Variable fetch : W → string → string → LLMRequest Num → W * Reply.
Variable cfg : LLMConfig Num.

(** One call either fails, and only the daily reset touches the tracker, or
    passes the check and books the tokens of a response with content. *)
Lemma callLLM_cases today p o w t :
  let res := callLLM num_add num_falsy calculateCost fetch cfg today p o
               (w, t) in
  let t1 := fst (checkDailyLimit today t) in
  (success (snd res) = false ∧ tokens_of (snd res) = 0 ∧
   snd (fst res) = t1) ∨
  (∃ c u cost,
     snd (fetch w (baseURL cfg) (apiKey cfg)
            (request_of num_falsy cfg p o)) = Body c u ∧
     snd (checkDailyLimit today t) = true ∧
     success (snd res) = true ∧ tokens_of (snd res) = total_tokens u ∧
     snd (fst res) = updateCostTracker num_add (total_tokens u) cost t1).
Proof.
  unfold callLLM. cbn [fst snd].
  destruct (checkDailyLimit today t) as [t1 ok] eqn:Hck. cbn [fst snd].
  destruct ok; cbn [negb]; [|by left].
  destruct (fetch w (baseURL cfg) (apiKey cfg)
              (request_of num_falsy cfg p o)) as [w' reply] eqn:Hf.
  destruct reply as [msg|status txt|c u]; [by left|by left|].
  destruct (Encryption.truthy c) as [text|]; [|by left].
  right. by eexists c, u, _.
Qed.

Lemma checkDailyLimit_limit today (t : CostTracker Num) :
  dailyLimit (fst (checkDailyLimit today t)) = dailyLimit t.
Proof. unfold checkDailyLimit. simpl. by case_bool_decide. Qed.

Lemma checkDailyLimit_tokens today (t : CostTracker Num) l :
  dailyLimit t = Some l →
  dailyTokens (fst (checkDailyLimit today t)) =
    (if bool_decide (lastResetDate t = today) then dailyTokens t else 0) ∧
  (snd (checkDailyLimit today t) = true →
   dailyTokens (fst (checkDailyLimit today t)) < l).
Proof.
  intros Hl. unfold checkDailyLimit. cbn [fst snd].
  repeat case_bool_decide; try done; simpl; rewrite Hl;
    (split; [done|]); intros Hok; by apply bool_decide_eq_true in Hok.
Qed.

Lemma checkDailyLimit_totals today (t : CostTracker Num) :
  requestCount (fst (checkDailyLimit today t)) = requestCount t ∧
  totalTokensUsed (fst (checkDailyLimit today t)) = totalTokensUsed t.
Proof. unfold checkDailyLimit. simpl. by case_bool_decide. Qed.

Lemma calls_run_snoc cs c s :
  calls_run num_add num_falsy calculateCost fetch cfg (cs ++ [c]) s =
  call_step num_add num_falsy calculateCost fetch cfg
    (calls_run num_add num_falsy calculateCost fetch cfg cs s) c.
Proof. unfold calls_run. by rewrite foldl_app. Qed.

Lemma successes_snoc (rs : list (CallResult Num)) r :
  length (successes (rs ++ [r])) =
  (length (successes rs) + (if success r then 1 else 0))%nat.
Proof.
  unfold successes. rewrite filter_app, length_app. f_equal.
  rewrite filter_cons, filter_nil. destruct (success r); by case_decide.
Qed.

Lemma tokens_snoc (rs : list (CallResult Num)) r :
  foldr Z.add 0 (tokens_of <$> (rs ++ [r])) =
  foldr Z.add 0 (tokens_of <$> rs) + tokens_of r.
Proof.
  induction rs as [|x rs IH]; csimpl; [lia|]. rewrite IH. lia.
Qed.

End Manager.

(** X20.  The daily limit refuses before anything is sent: on the day of
    the last reset, once [dailyTokens] has reached [dailyLimit] (or the
    limit is not a number), [callLLM] answers 'Daily token limit exceeded'
    without calling [fetch] and without touching the tracker. *)
Theorem daily_limit_refuses :
  ∀ (Num W : Type) (num_add : Num → Num → Num) (num_falsy : Num → bool)
    (calculateCost : string → Z → Z → Num)
    (fetch : W → string → string → LLMRequest Num → W * Reply)
    (cfg : LLMConfig Num) (today p : string) (o : option (Options Num))
    (w : W) (t : CostTracker Num),
    lastResetDate t = today →
    match dailyLimit t with
    | Some l => l ≤ dailyTokens t
    | None => True
    end →
    callLLM num_add num_falsy calculateCost fetch cfg today p o (w, t) =
      ((w, t), failure "Daily token limit exceeded").
Proof.
  intros Num W num_add num_falsy calculateCost fetch cfg today p o w t
    Hday Hlim.
  unfold callLLM, checkDailyLimit. cbn [fst snd].
  rewrite bool_decide_eq_false_2 by (by intros H; apply H).
  destruct (dailyLimit t) as [l|]; [|done].
  by rewrite bool_decide_eq_false_2 by lia.
Qed.

Lemma daily_limit_refuses_witness :
  callLLM Z.add (Z.eqb 0) sample_cost sample_fetch sample_config
    "2025-01-15" "hello" None
    (0%nat, updateCostTracker Z.add 1000 1000 sample_tracker) =
  ((0%nat, updateCostTracker Z.add 1000 1000 sample_tracker),
   failure "Daily token limit exceeded").
Proof.
  apply (daily_limit_refuses Z nat Z.add (Z.eqb 0) sample_cost sample_fetch
           sample_config "2025-01-15" "hello" None 0%nat
           (updateCostTracker Z.add 1000 1000 sample_tracker) eq_refl).
  simpl. lia.
Defined.

(** X21.  The first call of a new day goes out whatever was used the day
    before: when [lastResetDate] is not today and the limit is positive,
    [callLLM] calls [fetch], and afterwards the tracker is dated today and
    [dailyTokens] holds the tokens of this call alone. *)
Theorem new_day_resets_daily_usage :
  ∀ (Num W : Type) (num_add : Num → Num → Num) (num_falsy : Num → bool)
    (calculateCost : string → Z → Z → Num)
    (fetch : W → string → string → LLMRequest Num → W * Reply)
    (cfg : LLMConfig Num) (today p : string) (o : option (Options Num))
    (w : W) (t : CostTracker Num) (l : Z),
    lastResetDate t ≠ today → dailyLimit t = Some l → 0 < l →
    let res := callLLM num_add num_falsy calculateCost fetch cfg today p o
                 (w, t) in
    fst (fst res) = fst (fetch w (baseURL cfg) (apiKey cfg)
                           (request_of num_falsy cfg p o)) ∧
    lastResetDate (snd (fst res)) = today ∧
    dailyTokens (snd (fst res)) = tokens_of (snd res).
Proof.
  intros Num W num_add num_falsy calculateCost fetch cfg today p o w t l
    Hday Hlim Hl.
  unfold callLLM, checkDailyLimit. cbn [fst snd].
  rewrite bool_decide_eq_true_2 by done. simpl. rewrite Hlim.
  rewrite bool_decide_eq_true_2 by done. simpl.
  destruct (fetch w (baseURL cfg) (apiKey cfg)
              (request_of num_falsy cfg p o)) as [w' reply].
  destruct reply as [msg|status txt|c u]; [done|done|].
  by destruct (Encryption.truthy c).
Qed.

Lemma new_day_resets_daily_usage_witness :
  dailyTokens
    (snd (fst (callLLM Z.add (Z.eqb 0) sample_cost sample_fetch
                 sample_config "2025-01-16" "hello" None
                 (0%nat, updateCostTracker Z.add 1000 1000
                           sample_tracker)))) = 500.
Proof.
  apply (new_day_resets_daily_usage Z nat Z.add (Z.eqb 0) sample_cost
           sample_fetch sample_config "2025-01-16" "hello" None 0%nat
           (updateCostTracker Z.add 1000 1000 sample_tracker) 1000
           ltac:(discriminate) eq_refl ltac:(lia)).
Defined.


Lemma sample_fetch_within : replies_within sample_fetch 500.
Proof. intros w url key req c u [= <- <-]. simpl. lia. Qed.


(** X23.  The tracker books exactly the successful calls: over any series
    of calls on a fresh tracker, [requestCount] is the number of results
    with [success], [totalTokensUsed] is the sum of the tokens they report,
    and every call has a result (refusals, API errors and empty responses
    book nothing). *)
Theorem tracker_books_successful_calls :
  ∀ (Num W : Type) (num_zero : Num) (num_add : Num → Num → Num)
    (num_falsy : Num → bool) (calculateCost : string → Z → Z → Num)
    (fetch : W → string → string → LLMRequest Num → W * Reply)
    (cfg : LLMConfig Num) (limit : option Z) (d0 : string)
    (calls : list (Call Num)) (w : W),
    let res := calls_run num_add num_falsy calculateCost fetch cfg calls
                 (w, initializeCostTracker Num num_zero limit d0) in
    requestCount (snd (fst res)) = Z.of_nat (length (successes (snd res))) ∧
    totalTokensUsed (snd (fst res)) =
      foldr Z.add 0 (tokens_of <$> snd res) ∧
    length (snd res) = length calls.
Proof.
  intros Num W num_zero num_add num_falsy calculateCost fetch cfg limit d0
    calls w.
  induction calls as [|c cs IH] using rev_ind; [done|].
  cbn zeta in *. rewrite calls_run_snoc.
  destruct (calls_run num_add num_falsy calculateCost fetch cfg cs _)
    as [[w1 t1] rs]. cbn [fst snd] in IH. destruct IH as (IHn & IHt & IHl).
  unfold call_step. cbn [fst snd].
  pose proof (callLLM_cases Num num_add num_falsy calculateCost W fetch
                cfg (day c) (prompt c) (options c) w1 t1) as Hc.
  destruct (callLLM num_add num_falsy calculateCost fetch cfg (day c)
              (prompt c) (options c) (w1, t1)) as [[w2 t2] r].
  cbn [fst snd] in *.
  destruct (checkDailyLimit_totals Num (day c) t1) as [Hn Ht].
  rewrite successes_snoc, tokens_snoc, !length_app. simpl.
  destruct Hc as [(-> & -> & ->)|(b & u & cost & _ & _ & -> & -> & ->)].
  - rewrite Hn, Ht. lia.
  - cbn [updateCostTracker requestCount totalTokensUsed].
    rewrite Hn, Ht. lia.
Qed.

End LLMFacts.
